(** * ObjectDB: the indexing and query layer, embedded in Rocq

    The development follows the Go sources of the repository:
    - package [objectdb] (the version with [Query], the secondary index and the
      full-text index): [InsertOne], [FindOneById], [FindMany], [matchQuery],
      [matchCondition], [getValueFromPath], [DeleteOneById],
      [deleteDocumentFromIndex], [indexDocument], [getPathValues], [Search];
    - package [fts]: [analyze], [AddToIndex], [DeleteFromIndex], [Search],
      [intersection].

    The three Pebble stores are finite maps from keys to values.  Go maps that
    are only iterated ([Document]) are association lists whose order stands
    for the iteration order Go happens to pick; Go maps used as counters or
    sets inside [FindMany] are [gmap]/[gset]. *)

From Stdlib Require Import ZArith Ascii.
From stdpp Require Import gmap strings list fin_maps pretty sorting.

Open Scope string_scope.
Open Scope list_scope.

(** ** Library functions the code calls *)

(** What the program takes from the Go runtime and from third-party packages:
    the type [float64] with its formatting, parsing and order ([fmt],
    [strconv]), the Unicode classes and lower-casing ([unicode], [strings])
    and the Snowball stemmer.  The values of a document depend on the type
    [float64] alone, the functions on the whole runtime. *)
Class FloatType := float64 : Type.

Class GoRuntime `{FloatType} := {
  (** [fmt.Sprintf("%v", f)] for a [float64]. *)
  FormatFloat : float64 → string;
  (** [strconv.ParseFloat(s, 64)]; [None] is a parse error. *)
  ParseFloat : string → option float64;
  (** The conversion [float64(n)] of an integer. *)
  FloatOfInt : Z → float64;
  (** [x < y] and [x <= y] on [float64]. *)
  FloatLt : float64 → float64 → bool;
  FloatLe : float64 → float64 → bool;
  (** [unicode.IsLetter], [unicode.IsNumber] on the runes of a text. *)
  IsLetter : Ascii.ascii → bool;
  IsNumber : Ascii.ascii → bool;
  (** [strings.ToLower]. *)
  ToLower : string → string;
  (** [snowballeng.Stem(token, false)]. *)
  Stem : string → string
}.

(** [strings.Split(s, sep)] for a one-character separator, the only kind the
    program uses.  The result is never empty: [Split "" sep = [""]]. *)
Fixpoint Split (s : string) (sep : Ascii.ascii) : list string :=
  match s with
  | EmptyString => [""]
  | String c rest =>
      if Ascii.eqb c sep then "" :: Split rest sep
      else match Split rest sep with
           | [] => [String c ""]
           | piece :: pieces => String c piece :: pieces
           end
  end.

(** [strings.Join(elems, sep)]. *)
Definition Join (elems : list string) (sep : string) : string :=
  String.concat sep elems.

(** ** Dynamic values: Go's [interface{}] *)

Section Values.
Context `{GoRuntime}.

(** The dynamic types a document or a condition value can carry.  JSON
    decoding produces [Nil], [Bool], [Float64], [Str], [Slice] and [Map];
    [Int] stands for Go's integer types, which a caller can put into a
    condition. *)
Local Unset Elimination Schemes.
Inductive Any : Type :=
  | Nil
  | Bool (b : bool)
  | Float64 (f : float64)
  | Int (n : Z)
  | Str (s : string)
  | Slice (elems : list Any)
  | Map (fields : list (string * Any)).
Local Set Elimination Schemes.

(** [type Document map[string]interface{}] *)
Definition Document : Type := list (string * Any).

(** [v[key]] on a Go map: the zero value [nil] when the key is missing. *)
Fixpoint mapIndex (m : Document) (key : string) : Any :=
  match m with
  | [] => Nil
  | (k, v) :: rest => if String.eqb k key then v else mapIndex rest key
  end.

(** [_, ok := v[key]] *)
Fixpoint mapHas (m : Document) (key : string) : bool :=
  match m with
  | [] => false
  | (k, _) :: rest => if String.eqb k key then true else mapHas rest key
  end.

(** [delete(m, key)] *)
Fixpoint mapDelete (m : Document) (key : string) : Document :=
  match m with
  | [] => []
  | (k, v) :: rest =>
      if String.eqb k key then mapDelete rest key else (k, v) :: mapDelete rest key
  end.

(** [m[key] = v]: an existing entry is overwritten in place. *)
Fixpoint mapAssign (m : Document) (key : string) (v : Any) : Document :=
  match m with
  | [] => [(key, v)]
  | (k, w) :: rest =>
      if String.eqb k key then (k, v) :: mapDelete rest key
      else (k, w) :: mapAssign rest key v
  end.

(** Insertion into a list of rendered map entries kept sorted by key: [fmt]
    prints a map with its keys in increasing order. *)
Fixpoint insertByKey (e : string * string) (l : list (string * string))
  : list (string * string) :=
  match l with
  | [] => [e]
  | e' :: rest =>
      if String.leb (fst e) (fst e') then e :: l else e' :: insertByKey e rest
  end.

Definition sortByKey (l : list (string * string)) : list (string * string) :=
  foldr insertByKey [] l.

(** [fmt.Sprintf("%v", v)] *)
Fixpoint Sprint (v : Any) : string :=
  match v with
  | Nil => "<nil>"
  | Bool true => "true"
  | Bool false => "false"
  | Float64 f => FormatFloat f
  | Int n => pretty n
  | Str s => s
  | Slice elems => "[" +:+ Join (map Sprint elems) " " +:+ "]"
  | Map fields =>
      "map[" +:+
      Join (map (λ e, fst e +:+ ":" +:+ snd e)
              (sortByKey (map (λ kv, (fst kv, Sprint (snd kv))) fields))) " "
      +:+ "]"
  end.

End Values.

(** ** Queries and the predicate matcher (package [objectdb]) *)

Section Matcher.
Context `{GoRuntime}.

(** [type Condition struct { Path string; Operator string; Value interface{} }] *)
Record Condition := {
  Path : string;
  Operator : string;
  Value : Any
}.

(** An element of [type Query []struct { Operator string; Operands []Condition }].
    The group's [Operator] field is [GroupOperator] here, the name [Operator]
    being taken by [Condition]. *)
Record Group := {
  GroupOperator : string;
  Operands : list Condition
}.

Definition Query : Type := list Group.

(** Comparison operators *)
Definition EQ : string := "=".
Definition NE : string := "!=".
Definition GT : string := ">".
Definition GTE : string := ">=".
Definition LT : string := "<".
Definition LTE : string := "<=".

(** The loop of [getValueFromPath] over the parts of the path: [docSegment]
    is replaced by [v[part]] as long as it is a map. *)
Fixpoint walkPath (docSegment : Any) (parts : list string) : Any * bool :=
  match parts with
  | [] => (docSegment, true)
  | part :: rest =>
      match docSegment with
      | Map v => walkPath (mapIndex v part) rest
      | _ => (Nil, false)
      end
  end.

Definition getValueFromPath (document : Document) (path : string) : Any * bool :=
  walkPath (Map document) (Split path "."%char).

(** The type switch of [matchCondition] on the resolved value: numeric types
    are converted, a string is parsed, every other type gives up. *)
Definition leftOperand (value : Any) : option float64 :=
  match value with
  | Float64 v => Some v
  | Int v => Some (FloatOfInt v)
  | Str v => ParseFloat v
  | _ => None
  end.

(** [matchCondition] checks if a document matches a condition. *)
Definition matchCondition (document : Document) (condition : Condition) : bool :=
  let (value, ok) := getValueFromPath document (Path condition) in
  if negb ok then false
  else if String.eqb (Operator condition) EQ then
    String.eqb (Sprint value) (Sprint (Value condition))
  else if String.eqb (Operator condition) NE then
    negb (String.eqb (Sprint value) (Sprint (Value condition)))
  else
    match ParseFloat (Sprint (Value condition)) with
    | None => false
    | Some right' =>
        match leftOperand value with
        | None => false
        | Some left' =>
            if String.eqb (Operator condition) GT then FloatLt right' left'
            else if String.eqb (Operator condition) GTE then FloatLe right' left'
            else if String.eqb (Operator condition) LT then FloatLt left' right'
            else if String.eqb (Operator condition) LTE then FloatLe left' right'
            else false
        end
    end.

(** [matchQuery] checks if a document matches a query: the top level is an
    implicit conjunction; an ["OR"] group needs one matching operand, any
    other group needs all of them. *)
Definition matchQuery (document : Document) (query : Query) : bool :=
  forallb (λ topOperand,
    if String.eqb (GroupOperator topOperand) "OR"
    then existsb (matchCondition document) (Operands topOperand)
    else forallb (matchCondition document) (Operands topOperand)) query.

(** ** Keys and path-value pairs *)

Definition getDocumentKey (collectionName id : string) : string :=
  collectionName +:+ ":" +:+ id.

Definition getIndexKey (collectionName pathValue : string) : string :=
  collectionName +:+ ":" +:+ pathValue.

(** [fmt.Sprintf("%s=%v", path, value)] *)
Definition buildPathValue (path : string) (value : Any) : string :=
  path +:+ "=" +:+ Sprint value.

(** [getPathValues] on the map held by [v].  The Go function first runs
    [delete(document, "_id")] and then ranges over the map; here the range
    skips the entries of key ["_id"], which is the same walk (see
    [getPathValues_range]).  A nested map is walked with its own key as the
    prefix; a slice contributes nothing; anything else gives one pair, under
    [prefix + "." + key] when the prefix is not empty. *)
Fixpoint pathValuesOf (v : Any) (prefix : string) {struct v} : list string :=
  match v with
  | Map document =>
      (fix range (entries : list (string * Any)) : list string :=
         match entries with
         | [] => []
         | (key, value) :: rest =>
             if String.eqb key "_id" then range rest
             else match value with
                  | Map _ => pathValuesOf value key ++ range rest
                  | Slice _ => range rest
                  | _ =>
                      buildPathValue
                        (if String.eqb prefix "" then key else prefix +:+ "." +:+ key)
                        value :: range rest
                  end
         end) document
  | _ => []
  end.

Definition getPathValues (document : Document) (prefix : string) : list string :=
  pathValuesOf (Map document) prefix.

(** What [getPathValues] leaves of the map it was given: Go maps are
    references, so the [delete(document, "_id")] of every level is seen by the
    caller. *)
Fixpoint afterPathValues (v : Any) : Any :=
  match v with
  | Map document =>
      Map ((fix range (entries : list (string * Any)) : list (string * Any) :=
              match entries with
              | [] => []
              | (key, value) :: rest =>
                  if String.eqb key "_id" then range rest
                  else (key, match value with
                             | Map _ => afterPathValues value
                             | _ => value
                             end) :: range rest
              end) document)
  | _ => v
  end.

Definition documentAfterPathValues (document : Document) : Document :=
  match afterPathValues (Map document) with
  | Map document' => document'
  | _ => document
  end.

(** One step of the range of [getPathValues], on an entry that survived the
    deletion of ["_id"]. *)
Definition pathValuesOfEntry (prefix : string) (entry : string * Any) : list string :=
  match snd entry with
  | Map v => getPathValues v (fst entry)
  | Slice _ => []
  | value =>
      [buildPathValue
         (if String.eqb prefix "" then fst entry else prefix +:+ "." +:+ fst entry)
         value]
  end.

End Matcher.

(** ** Results of operations *)

Inductive error : Type :=
  | ErrDuplicateKey (id : string)
  | ErrNoDocuments
  | ErrDocumentNotExists.

(** An operation returns a value, returns an error, or panics. *)
Inductive result (A : Type) : Type :=
  | Ok (a : A)
  | Err (e : error)
  | Panic.
Arguments Ok {A} a.
Arguments Err {A} e.
Arguments Panic {A}.

(** ** Posting lists in a Pebble store *)

(** The bytes [Get] hands back for a key: empty when the key is not found
    ([pebble.ErrNotFound] leaves the value [nil]). *)
Definition Get (kv : gmap string string) (key : string) : string :=
  default "" (kv !! key).

(** The posting list written back when [id] is added: the id alone for an
    empty value, else the value with [","+id] appended unless the id is
    already among the comma-separated ids. *)
Definition addId (idsString id : string) : string :=
  if String.eqb idsString "" then id
  else
    let ids := Split idsString ","%char in
    let found := existsb (String.eqb id) ids in
    if negb found then idsString +:+ "," +:+ id else idsString.

(** The ids that stay when [id] is removed. *)
Definition removeId (idsString id : string) : list string :=
  filter (λ existingId, id ≠ existingId) (Split idsString ","%char).

(** The entries of a store in the order of its iterator: increasing keys. *)
Definition Iterate {V : Type} (kv : gmap string V) : list (string * V) :=
  merge_sort (λ e1 e2 : string * V, Is_true (String.leb e1.1 e2.1)) (map_to_list kv).

(** ** Package [fts]: text analysis and the inverted index *)

(** [strings.FieldsFunc(text, f)]: the maximal runs of characters on which
    [f] is false; [field] is the run being read. *)
Fixpoint fieldsFrom (f : ascii → bool) (text field : string) : list string :=
  match text with
  | EmptyString => if String.eqb field "" then [] else [field]
  | String c rest =>
      if f c then
        if String.eqb field "" then fieldsFrom f rest ""
        else field :: fieldsFrom f rest ""
      else fieldsFrom f rest (field +:+ String c "")
  end.

Definition FieldsFunc (text : string) (f : ascii → bool) : list string :=
  fieldsFrom f text "".

Module fts.
Section Analysis.
Context `{GoRuntime}.

(** Tokenization: split on any character that is not a letter or a number. *)
Definition tokenize (text : string) : list string :=
  FieldsFunc text (λ r, negb (IsLetter r) && negb (IsNumber r)).

Definition lowercaseFilter (tokens : list string) : list string :=
  map ToLower tokens.

Definition stopwords : list string :=
  ["a"; "and"; "be"; "have"; "i"; "in"; "of"; "that"; "the"; "to"].

Definition stopwordFilter (tokens : list string) : list string :=
  List.filter (λ token, negb (existsb (String.eqb token) stopwords)) tokens.

Definition stemmerFilter (tokens : list string) : list string :=
  map Stem tokens.

(** Analysis pipeline *)
Definition analyze (text : string) : list string :=
  stemmerFilter (stopwordFilter (lowercaseFilter (tokenize text))).

(** [type FTS struct { textIndex *pebble.DB }] *)
Record FTS := { textIndex : gmap string string }.

Definition getIndexKey (collectionName token : string) : string :=
  collectionName +:+ ":" +:+ token.

(** A struct value as [AddToIndex] and [encoding/json] see it: per field the
    JSON name, the value of the [objectdb] tag and the contents. *)
Record StructField := {
  Name : string;
  Tag : string;
  Contents : Any
}.

Definition Struct : Type := list StructField.

(** The body of the token loop of [AddToIndex]. *)
Definition addToken (collectionName id : string)
    (index : gmap string string) (token : string) : gmap string string :=
  let indexKey := getIndexKey collectionName token in
  let idsString := Get index indexKey in
  <[indexKey := addId idsString id]> index.

(** The loop over the tag values of one field: a ["textIndex"] tag indexes
    the tokens of the field; the type assertion [fieldValue.(string)] panics
    on a field that is not a string. *)
Fixpoint addTags (collectionName id : string) (fieldValue : Any)
    (tagValues : list string) (index : gmap string string)
  : gmap string string * result unit :=
  match tagValues with
  | [] => (index, Ok ())
  | tag :: rest =>
      if String.eqb tag "textIndex" then
        match fieldValue with
        | Str text =>
            addTags collectionName id fieldValue rest
              (foldl (addToken collectionName id) index (analyze text))
        | _ => (index, Panic)
        end
      else addTags collectionName id fieldValue rest index
  end.

Fixpoint addFields (collectionName id : string) (fields : Struct)
    (index : gmap string string) : gmap string string * result unit :=
  match fields with
  | [] => (index, Ok ())
  | field :: rest =>
      match addTags collectionName id (Contents field)
              (Split (Tag field) ";"%char) index with
      | (index', Ok _) => addFields collectionName id rest index'
      | stopped => stopped
      end
  end.

(** Building the inverted index *)
Definition AddToIndex (f : FTS) (collectionName id : string) (document : Struct)
  : FTS * result unit :=
  let (index, r) := addFields collectionName id document (textIndex f) in
  ({| textIndex := index |}, r).

(** The body of the token loop of [DeleteFromIndex]: an empty value is
    skipped ([continue]); otherwise the id is filtered out and the key is
    deleted when no id is left. *)
Definition removeToken (collectionName id : string)
    (index : gmap string string) (token : string) : gmap string string :=
  let indexKey := getIndexKey collectionName token in
  let idsString := Get index indexKey in
  if String.eqb idsString "" then index
  else
    let newIds := removeId idsString id in
    if Nat.eqb (length newIds) 0 then delete indexKey index
    else <[indexKey := Join newIds ","]> index.

(** The loop over the fields of the stored document.
    [reflect.TypeOf(fieldValue)] is [nil] for a [nil] value, and calling
    [Kind] on it panics; values of other kinds than string are skipped. *)
Fixpoint deleteFields (collectionName id : string) (document : Document)
    (index : gmap string string) : gmap string string * result unit :=
  match document with
  | [] => (index, Ok ())
  | (_, fieldValue) :: rest =>
      match fieldValue with
      | Nil => (index, Panic)
      | Str text =>
          deleteFields collectionName id rest
            (foldl (removeToken collectionName id) index (analyze text))
      | _ => deleteFields collectionName id rest index
      end
  end.

(** Deleting from the inverted index *)
Definition DeleteFromIndex (f : FTS) (collectionName id : string)
    (document : Document) : FTS * result unit :=
  let (index, r) := deleteFields collectionName id document (textIndex f) in
  ({| textIndex := index |}, r).

(** [intersection(a, b)]: the items of [b] that are in the set of the items
    of [a], in the order of [b]. *)
Definition intersection (a b : list string) : list string :=
  filter (λ item, item ∈ a) b.

(** The body of the token loop of [Search]. *)
Definition searchToken (collectionName : string) (index : gmap string string)
    (matchedIds : list string) (token : string) : list string :=
  let idsString := Get index (getIndexKey collectionName token) in
  if String.eqb idsString "" then matchedIds
  else
    let ids := Split idsString ","%char in
    if Nat.eqb (length matchedIds) 0 then ids else intersection matchedIds ids.

(** Querying *)
Definition Search (f : FTS) (collectionName text : string) : list string :=
  foldl (searchToken collectionName (textIndex f)) [] (analyze text).

(** [Clear]: every key the iterator finds is deleted. *)
Definition Clear (f : FTS) : FTS :=
  {| textIndex :=
       foldl (λ index (e : string * string), delete e.1 index)
         (textIndex f) (Iterate (textIndex f)) |}.

End Analysis.
End fts.

(** ** Package [objectdb]: the database *)

Section Database.
Context `{GoRuntime}.

(** [type DB struct { store *pebble.DB; index *pebble.DB; fts *fts.FTS }].
    The primary store holds JSON text; [json.Unmarshal] gives back the map
    that [json.Marshal] was given, so the store is kept in decoded form. *)
Record DB := {
  store : gmap string Document;
  index : gmap string string;
  fts : fts.FTS
}.

(** The three stores right after [Open] on a fresh path. *)
Definition emptyDB : DB :=
  {| store := ∅; index := ∅; fts := {| fts.textIndex := ∅ |} |}.

(** [type Options struct { Limit int }] *)
Record Options := { Limit : Z }.

(** The map [json.Unmarshal] fills from the JSON text of a struct: one entry
    per field, under the field's JSON name. *)
Definition jsonObject (document : fts.Struct) : Document :=
  foldl (λ documentMap field,
           mapAssign documentMap (fts.Name field) (fts.Contents field))
        [] document.

(** The body of the loop of [indexDocument]. *)
Definition indexPathValue (collectionName id : string)
    (index : gmap string string) (pathValue : string) : gmap string string :=
  let indexKey := getIndexKey collectionName pathValue in
  let idsString := Get index indexKey in
  <[indexKey := addId idsString id]> index.

(** Index a document *)
Definition indexDocument (index : gmap string string)
    (collectionName id : string) (document : Document) : gmap string string :=
  let pv := getPathValues document "" in
  foldl (indexPathValue collectionName id) index pv.

(** The loop of [deleteDocumentFromIndex] over the path-value pairs.  On an
    empty value the function returns ([return nil]): the pairs that follow
    are not visited. *)
Fixpoint deletePathValues (collectionName id : string) (pv : list string)
    (index : gmap string string) : gmap string string :=
  match pv with
  | [] => index
  | pathValue :: rest =>
      let indexKey := getIndexKey collectionName pathValue in
      let idsString := Get index indexKey in
      if String.eqb idsString "" then index
      else
        let newIds := removeId idsString id in
        deletePathValues collectionName id rest
          (if Nat.eqb (length newIds) 0 then delete indexKey index
           else <[indexKey := Join newIds ","]> index)
  end.

Definition deleteDocumentFromIndex (index : gmap string string)
    (collectionName id : string) (document : Document) : gmap string string :=
  let pv := getPathValues document "" in
  deletePathValues collectionName id pv index.

(** [InsertOne]; [id] is the string that [uuid.New().String()] returned.
    The document is in the primary store before the two indexes are written,
    and stays there when [AddToIndex] panics. *)
Definition InsertOne (db : DB) (collectionName : string) (document : fts.Struct)
    (id : string) : DB * result string :=
  let documentMap := mapAssign (jsonObject document) "_id" (Str id) in
  let key := getDocumentKey collectionName id in
  match store db !! key with
  | Some _ => (db, Err (ErrDuplicateKey id))
  | None =>
      let store' := <[key := documentMap]> (store db) in
      let index' := indexDocument (index db) collectionName id documentMap in
      match fts.AddToIndex (fts db) collectionName id document with
      | (fts', Ok _) => ({| store := store'; index := index'; fts := fts' |}, Ok id)
      | (fts', Err e) => ({| store := store'; index := index'; fts := fts' |}, Err e)
      | (fts', Panic) => ({| store := store'; index := index'; fts := fts' |}, Panic)
      end
  end.

Definition FindOneById (db : DB) (collectionName id : string) : result Document :=
  let key := getDocumentKey collectionName id in
  match store db !! key with
  | None => Err ErrDocumentNotExists
  | Some document => Ok document
  end.

(** The first loop of [FindMany] over the top-level groups, with the value
    of [fallbackToFullScan] so far.  The [break] of the inner loop of an
    ["OR"] group leaves only that loop; the [break] after [!foundEQ] leaves
    the loop over the groups. *)
Fixpoint classifyGroups (query : Query) (fallbackToFullScan : bool) : bool :=
  match query with
  | [] => fallbackToFullScan
  | topOperand :: rest =>
      let fallbackToFullScan :=
        if String.eqb (GroupOperator topOperand) "OR" then
          if existsb (λ operand, negb (String.eqb (Operator operand) EQ))
               (Operands topOperand)
          then true else fallbackToFullScan
        else fallbackToFullScan in
      let foundEQ :=
        existsb (λ operand, String.eqb (Operator operand) EQ) (Operands topOperand) in
      if negb foundEQ then true else classifyGroups rest fallbackToFullScan
  end.

(** The value of [fallbackToFullScan] when the classification is done. *)
Definition fallbackToFullScan (query : Query) : bool :=
  if Nat.ltb 0 (length query) then classifyGroups query false else true.

(** [idsConditionCount[id]++] for every id of a list, a missing entry
    counting as zero. *)
Definition countIds (ids : list string) (idsConditionCount : gmap string nat)
  : gmap string nat :=
  foldl (λ counts id, <[id := S (default 0 (counts !! id))]> counts)
        idsConditionCount ids.

(** The ids [FindMany] reads from the secondary index for one operand:
    [strings.Split(string(idsString), ",")], also when the key is not found. *)
Definition idsOfOperand (index : gmap string string) (collectionName : string)
    (operand : Condition) : list string :=
  let indexKey :=
    getIndexKey collectionName
      (buildPathValue (Path operand) (Str (Sprint (Value operand)))) in
  let idsString := Get index indexKey in
  Split idsString ","%char.

(** One top-level group of the index phase, on the pair
    [(idsConditionCount, nonRangeConditionCount)]. *)
Definition countGroup (index : gmap string string) (collectionName : string)
    (state : gmap string nat * nat) (topOperand : Group) : gmap string nat * nat :=
  let (idsConditionCount, nonRangeConditionCount) := state in
  if String.eqb (GroupOperator topOperand) "OR" then
    let matchedIdsInOr : gset string :=
      foldl (λ matched operand,
               matched ∪ list_to_set (idsOfOperand index collectionName operand))
            ∅ (Operands topOperand) in
    (countIds (elements matchedIdsInOr) idsConditionCount,
     S nonRangeConditionCount)
  else
    foldl (λ (st : gmap string nat * nat) operand,
             if String.eqb (Operator operand) EQ then
               (countIds (idsOfOperand index collectionName operand) st.1, S st.2)
             else st)
          (idsConditionCount, nonRangeConditionCount) (Operands topOperand).

Definition countQuery (index : gmap string string) (collectionName : string)
    (query : Query) : gmap string nat * nat :=
  foldl (countGroup index collectionName) (∅, 0) query.

(** [allMatchedIdsFromIndex]: the ids whose count is [nonRangeConditionCount]. *)
Definition candidates (index : gmap string string) (collectionName : string)
    (query : Query) : list string :=
  let (idsConditionCount, nonRangeConditionCount) :=
    countQuery index collectionName query in
  map fst
    (List.filter (λ e : string * nat, Nat.eqb e.2 nonRangeConditionCount)
       (map_to_list idsConditionCount)).

(** The loop that both branches of [FindMany] run over the documents they
    look at: a match is appended, and the loop stops when [Limit > 0]
    documents have been collected. *)
Fixpoint collect (options : Options) (query : Query) (found : list Document)
    (documents : list Document) : list Document :=
  match found with
  | [] => documents
  | document :: rest =>
      if matchQuery document query then
        let documents := documents ++ [document] in
        if Z.ltb 0 (Limit options) && Z.leb (Limit options) (Z.of_nat (length documents))
        then documents
        else collect options query rest documents
      else collect options query rest documents
  end.

(** The document [FindMany] gets for a candidate id: the [nil] map when
    [FindOneById] returns [ErrDocumentNotExists]. *)
Definition candidateDocument (db : DB) (collectionName id : string) : Document :=
  match FindOneById db collectionName id with
  | Ok document => document
  | _ => []
  end.

(** The documents the scan decodes and keeps: those whose key, up to the
    first colon, is the collection name. *)
Definition scanned (db : DB) (collectionName : string) : list Document :=
  map snd
    (List.filter
       (λ e : string * Document,
          String.eqb (hd "" (Split e.1 ":"%char)) collectionName)
       (Iterate (store db))).

(** The branch of [FindMany] that uses the index: every candidate id is
    loaded and checked against the whole query. *)
Definition indexEvaluation (db : DB) (collectionName : string) (query : Query)
    (options : Options) : list Document :=
  let allMatchedIdsFromIndex := candidates (index db) collectionName query in
  collect options query
    (map (candidateDocument db collectionName) allMatchedIdsFromIndex) [].

(** The branch of [FindMany] that scans the entire collection. *)
Definition fullScan (db : DB) (collectionName : string) (query : Query)
    (options : Options) : list Document :=
  collect options query (scanned db collectionName) [].

Definition FindMany (db : DB) (collectionName : string) (query : Query)
    (options : Options) : list Document :=
  if negb (fallbackToFullScan query)
  then indexEvaluation db collectionName query options
  else fullScan db collectionName query options.

Definition FindOne (db : DB) (collectionName : string) (query : Query)
  : result Document :=
  match FindMany db collectionName query {| Limit := 1 |} with
  | [] => Err ErrNoDocuments
  | document :: _ => Ok document
  end.

(** [DeleteOneById]: the document is read, taken out of the secondary index,
    then out of the text index, then out of the primary store.  The text
    index gets the map that [getPathValues] has already stripped of ["_id"]. *)
Definition DeleteOneById (db : DB) (collectionName id : string) : DB * result unit :=
  let key := getDocumentKey collectionName id in
  match FindOneById db collectionName id with
  | Err e => (db, Err e)
  | Panic => (db, Panic)
  | Ok document =>
      let index' := deleteDocumentFromIndex (index db) collectionName id document in
      let document := documentAfterPathValues document in
      match fts.DeleteFromIndex (fts db) collectionName id document with
      | (fts', Ok _) =>
          ({| store := delete key (store db); index := index'; fts := fts' |}, Ok ())
      | (fts', Err e) =>
          ({| store := store db; index := index'; fts := fts' |}, Err e)
      | (fts', Panic) =>
          ({| store := store db; index := index'; fts := fts' |}, Panic)
      end
  end.

(** The loop of [Search] over the ids found in the text index: the first
    id without a document ends the search with the error. *)
Fixpoint loadDocuments (db : DB) (collectionName : string) (documentIds : list string)
  : result (list Document) :=
  match documentIds with
  | [] => Ok []
  | id :: rest =>
      match FindOneById db collectionName id with
      | Ok document =>
          match loadDocuments db collectionName rest with
          | Ok documents => Ok (document :: documents)
          | stopped => stopped
          end
      | Err e => Err e
      | Panic => Panic
      end
  end.

(** Full-text search *)
Definition Search (db : DB) (collectionName text : string) : result (list Document) :=
  loadDocuments db collectionName (fts.Search (fts db) collectionName text).

(** The states of a database that starts empty and is changed only by
    inserts and deletes that returned without error. *)
Inductive reachable : DB → Prop :=
  | reachable_empty : reachable emptyDB
  | reachable_insert db collectionName document id db' :
      reachable db →
      InsertOne db collectionName document id = (db', Ok id) →
      reachable db'
  | reachable_delete db collectionName id db' :
      reachable db →
      DeleteOneById db collectionName id = (db', Ok ()) →
      reachable db'.

(** [InsertMany]: the documents are inserted one by one; [ids n] is the
    string that the [n]-th call of [uuid.New().String()] returns.  The first
    insert that fails ends the loop: its error is returned and the ids of
    the earlier inserts are dropped, but their documents stay. *)
Fixpoint InsertMany (db : DB) (collectionName : string)
    (documents : list fts.Struct) (ids : nat → string) : DB * result (list string) :=
  match documents with
  | [] => (db, Ok [])
  | document :: rest =>
      match InsertOne db collectionName document (ids 0) with
      | (db', Ok id) =>
          match InsertMany db' collectionName rest (λ n, ids (S n)) with
          | (db'', Ok inserted) => (db'', Ok (id :: inserted))
          | stopped => stopped
          end
      | (db', Err e) => (db', Err e)
      | (db', Panic) => (db', Panic)
      end
  end.

(** The loop of [Clear] on one store: [Delete] of every key the iterator
    finds. *)
Definition clearStore {V : Type} (kv : gmap string V) : gmap string V :=
  foldl (λ kv (e : string * V), delete e.1 kv) kv (Iterate kv).

(** Clear all data in the store and index *)
Definition Clear (db : DB) : DB :=
  {| store := clearStore (store db);
     index := clearStore (index db);
     fts := fts.Clear (fts db) |}.

End Database.

(** ** A runtime for running the model

    [asciiRuntime] fixes the library functions on the inputs used in the
    examples below: ASCII text, integral numbers printed in plain decimal
    (as [%v] prints a [float64] that is a whole number of magnitude below a
    million; [integers] holds these and the other whole numbers), and words of
    at most two letters, which the Snowball stemmer returns unchanged. *)

Definition asciiIsLetter (r : ascii) : bool :=
  let n := nat_of_ascii r in
  (Nat.leb 65 n && Nat.leb n 90) || (Nat.leb 97 n && Nat.leb n 122).

Definition asciiIsNumber (r : ascii) : bool :=
  let n := nat_of_ascii r in
  Nat.leb 48 n && Nat.leb n 57.

Fixpoint asciiToLower (s : string) : string :=
  match s with
  | EmptyString => EmptyString
  | String c rest =>
      let n := nat_of_ascii c in
      String (if Nat.leb 65 n && Nat.leb n 90 then ascii_of_nat (n + 32) else c)
             (asciiToLower rest)
  end.

(** The digits of a decimal numeral, read from the left. *)
Fixpoint parseDigits (s : string) (acc : Z) : option Z :=
  match s with
  | EmptyString => Some acc
  | String c rest =>
      if asciiIsNumber c
      then parseDigits rest (10 * acc + Z.of_nat (nat_of_ascii c - 48))
      else None
  end.

Definition parseInteger (s : string) : option Z :=
  match s with
  | EmptyString => None
  | String "-" (String _ _ as digits) => Z.opp <$> parseDigits digits 0
  | String "+" (String _ _ as digits) => parseDigits digits 0
  | _ => parseDigits s 0
  end.

Definition integers : FloatType := Z.

Definition asciiRuntime : @GoRuntime integers := {|
  FormatFloat := pretty;
  ParseFloat := parseInteger;
  FloatOfInt := id;
  FloatLt := Z.ltb;
  FloatLe := Z.leb;
  IsLetter := asciiIsLetter;
  IsNumber := asciiIsNumber;
  ToLower := asciiToLower;
  Stem := id
|}.

(** ** What the specification says, in its own words *)

Section Specification.
Context `{GoRuntime}.

(** The rule of a top-level group: an OR group has conditions and all of
    them use [=]; an AND group (every group that is not an OR group) has at
    least one condition that uses [=]. *)
Definition groupRule (topOperand : Group) : bool :=
  if String.eqb (GroupOperator topOperand) "OR" then
    negb (Nat.eqb (length (Operands topOperand)) 0)
    && forallb (λ operand, String.eqb (Operator operand) EQ) (Operands topOperand)
  else
    existsb (λ operand, String.eqb (Operator operand) EQ) (Operands topOperand).

(** A query is index-eligible when it is not empty and every top-level group
    satisfies its rule. *)
Definition indexEligible (query : Query) : bool :=
  negb (Nat.eqb (length query) 0) && forallb groupRule query.

(** The reference evaluation of a query: every document of the primary
    keyspace of the collection, kept when the matcher accepts it. *)
Definition referenceFindMany (db : DB) (collectionName : string) (query : Query)
  : list Document :=
  List.filter (λ document, matchQuery document query) (scanned db collectionName).

(** The posting list of a token, as a list of ids: empty when the key is
    absent or holds no bytes. *)
Definition postingList (f : fts.FTS) (collectionName token : string) : list string :=
  let idsString := Get (fts.textIndex f) (fts.getIndexKey collectionName token) in
  if String.eqb idsString "" then [] else Split idsString ","%char.

(** The posting lists of the analyzed tokens of a text that are not empty,
    in the order of the tokens. *)
Definition nonEmptyPostingLists (f : fts.FTS) (collectionName text : string)
  : list (list string) :=
  List.filter (λ ids, negb (Nat.eqb (length ids) 0))
    (map (postingList f collectionName) (fts.analyze text)).

(** An id is in the intersection of the non-empty posting lists of a text:
    there is such a list, and the id is in all of them. *)
Definition inEveryPostingList (f : fts.FTS) (collectionName text id : string) : bool :=
  negb (Nat.eqb (length (nonEmptyPostingLists f collectionName text)) 0)
  && forallb (λ ids, existsb (String.eqb id) ids)
       (nonEmptyPostingLists f collectionName text).

(** The entries of the primary store behind a list of ids: what
    [FindOneById] finds for the ids that have a document. *)
Definition storedEntries (db : DB) (collectionName : string) (ids : list string)
  : list (string * Document) :=
  omap (λ id, (λ document, (getDocumentKey collectionName id, document))
                <$> store db !! getDocumentKey collectionName id) ids.

(** A collection name is well formed for the scan when it has no colon. *)
Fixpoint hasColon (collectionName : string) : bool :=
  match collectionName with
  | EmptyString => false
  | String c rest => Ascii.eqb c ":"%char || hasColon rest
  end.

(** A string has a given character. *)
Fixpoint hasChar (c : ascii) (s : string) : bool :=
  match s with
  | EmptyString => false
  | String c' rest => Ascii.eqb c' c || hasChar c rest
  end.

(** Every character of a string satisfies a test. *)
Fixpoint allChars (f : ascii → bool) (s : string) : bool :=
  match s with
  | EmptyString => true
  | String c rest => f c && allChars f rest
  end.

(** An id as the generator makes them, as far as the stores depend on it:
    not empty, without the comma that separates the ids of a posting list
    and without the colon that ends the collection name in a key. *)
Definition plainId (id : string) : bool :=
  negb (String.eqb id "") && negb (hasChar ","%char id) && negb (hasChar ":"%char id).

(** The ids listed under a key of an index: none when the key is absent. *)
Definition idsAt (kv : gmap string string) (key : string) : list string :=
  let idsString := Get kv key in
  if String.eqb idsString "" then [] else Split idsString ","%char.

(** Every value of an index is a posting list in good form: not empty, no
    id twice, no empty id. *)
Definition wellFormedPostings (kv : gmap string string) : Prop :=
  ∀ key idsString, kv !! key = Some idsString →
    idsString ≠ "" ∧ NoDup (Split idsString ","%char)
    ∧ "" ∉ Split idsString ","%char.

(** A value is [nil]; a value is a string. *)
Definition isNil (v : Any) : bool :=
  match v with Nil => true | _ => false end.

Definition isStr (v : Any) : bool :=
  match v with Str _ => true | _ => false end.

(** A field carries the tag value [textIndex]. *)
Definition textIndexed (field : fts.StructField) : bool :=
  existsb (λ tag, String.eqb tag "textIndex") (Split (fts.Tag field) ";"%char).

(** The states of a database whose inserts used plain ids, whatever the
    inserts and deletes returned. *)
Inductive evolved : DB → Prop :=
  | evolved_empty : evolved emptyDB
  | evolved_insert db collectionName document id :
      evolved db → plainId id = true →
      evolved (InsertOne db collectionName document id).1
  | evolved_delete db collectionName id :
      evolved db →
      evolved (DeleteOneById db collectionName id).1.

(** The states reached by inserts alone, with plain ids and collection
    names without a colon, each insert having run to its end (with or
    without a panic in the text index). *)
Inductive insertedOnly : DB → Prop :=
  | insertedOnly_empty : insertedOnly emptyDB
  | insertedOnly_insert db collectionName document id :
      insertedOnly db → plainId id = true → hasColon collectionName = false →
      insertedOnly (InsertOne db collectionName document id).1.

(** How often an id occurs in a list of ids. *)
Definition occurrences (id : string) (ids : list string) : nat :=
  length (filter (λ x, x = id) ids).

(** The ids of an ["OR"] group: the keys of [matchedIdsInOr]. *)
Definition idsOfOrGroup (index : gmap string string) (collectionName : string)
    (topOperand : Group) : gset string :=
  foldl (λ matched operand,
           matched ∪ list_to_set (idsOfOperand index collectionName operand))
        ∅ (Operands topOperand).

(** The lists of ids that the index phase counts for one group: for an
    ["OR"] group the ids of the group, each once; for any other group the
    ids read for each of its conditions with [=]. *)
Definition groupTerms (index : gmap string string) (collectionName : string)
    (topOperand : Group) : list (list string) :=
  if String.eqb (GroupOperator topOperand) "OR"
  then [elements (idsOfOrGroup index collectionName topOperand)]
  else map (idsOfOperand index collectionName)
         (List.filter (λ operand, String.eqb (Operator operand) EQ)
            (Operands topOperand)).

Definition queryTerms (index : gmap string string) (collectionName : string)
    (query : Query) : list (list string) :=
  flat_map (groupTerms index collectionName) query.

(** A value that [getPathValues] turns into a path-value pair. *)
Definition isScalar (v : Any) : bool :=
  match v with Map _ | Slice _ => false | _ => true end.

(** The counts of a map are positive. *)
Definition positiveCounts (counts : gmap string nat) : Prop :=
  ∀ id n, counts !! id = Some n → (0 < n)%nat.

(** The state of the index phase after some lists of ids have been
    counted, against the state before. *)
Definition counted (before after : gmap string nat * nat)
    (terms : list (list string)) : Prop :=
  after.2 = (before.2 + length terms)%nat
  ∧ (∀ id, default 0 (after.1 !! id) =
           (default 0 (before.1 !! id)
            + sum_list_with (occurrences id) terms)%nat)
  ∧ (positiveCounts before.1 → positiveCounts after.1).

(** A condition looks up a value that the index holds for a document: the
    path-value pair that the index phase builds from the condition is one of
    the path-value pairs of the document. *)
Definition indexedCondition (document : Document) (condition : Condition) : Prop :=
  buildPathValue (Path condition) (Str (Sprint (Value condition)))
    ∈ getPathValues document "".

(** The index covers a query on a collection: every condition with [=]
    that a stored document of the collection satisfies looks up a value
    that the index holds for that document. *)
Definition indexCovers (db : DB) (collectionName : string) (query : Query) : Prop :=
  ∀ id document topOperand operand,
    FindOneById db collectionName id = Ok document →
    topOperand ∈ query → operand ∈ Operands topOperand →
    Operator operand = EQ →
    matchCondition document operand = true →
    indexedCondition document operand.

(** Every stored document is listed in the secondary index under each of
    its path-value pairs. *)
Definition listed (db : DB) : Prop :=
  ∀ collectionName id document pathValue,
    hasColon collectionName = false →
    store db !! getDocumentKey collectionName id = Some document →
    pathValue ∈ getPathValues document "" →
    id ∈ idsAt (index db) (getIndexKey collectionName pathValue).

(** Every key of the primary store is the key of a document in a
    collection whose name has no colon. *)
Definition keyed (db : DB) : Prop :=
  ∀ key document, store db !! key = Some document →
    ∃ collectionName id,
      key = getDocumentKey collectionName id ∧ hasColon collectionName = false.

(** The states of a database that starts empty and is changed only by
    inserts and deletes that returned without error, the generated ids being
    plain and the collection names without a colon. *)
Inductive maintained : DB → Prop :=
  | maintained_empty : maintained emptyDB
  | maintained_insert db collectionName document id db' :
      maintained db →
      plainId id = true → hasColon collectionName = false →
      InsertOne db collectionName document id = (db', Ok id) →
      maintained db'
  | maintained_delete db collectionName id db' :
      maintained db →
      hasColon collectionName = false →
      DeleteOneById db collectionName id = (db', Ok ()) →
      maintained db'.

End Specification.

(** ** Inputs of the examples *)

Section Examples.
#[local] Existing Instance integers.
#[local] Existing Instance asciiRuntime.

Definition id1 : string := "1b4e28ba-2fa1-41d2-883f-0016d3cca427".
Definition id2 : string := "6fa459ea-ee8a-4ca4-894e-db77e160355e".
Definition id3 : string := "886313e1-3b8a-4372-9b90-0c9aee199e5d".

(** [struct { Name string `json:"name" objectdb:"textIndex"` }] *)
Definition named (name : string) : fts.Struct :=
  [ {| fts.Name := "name"; fts.Tag := "textIndex"; fts.Contents := Str name |} ].

(** The database after [InsertOne("c", named "go")]. *)
Definition dbOne : DB := (InsertOne emptyDB "c" (named "go") id1).1.

(** The database after three inserts with the names go, ox and pi. *)
Definition dbThree : DB :=
  let db := (InsertOne emptyDB "c" (named "go") id1).1 in
  let db := (InsertOne db "c" (named "ox") id2).1 in
  (InsertOne db "c" (named "pi") id3).1.

(** [Query{{"AND", []Condition{{Path: "_id", Operator: "=", Value: id1}}}}] *)
Definition queryById : Query :=
  [ {| GroupOperator := "AND";
       Operands := [ {| Path := "_id"; Operator := EQ; Value := Str id1 |} ] |} ].

(** [Query{{"AND", []Condition{{Path: "name", Operator: "=", Value: "Nobody"}}}}] *)
Definition queryNobody : Query :=
  [ {| GroupOperator := "AND";
       Operands := [ {| Path := "name"; Operator := EQ; Value := Str "Nobody" |} ] |} ].

(** [Query{{"AND", []Condition{{Path: "nick", Operator: "=", Value: nil}}}}] *)
Definition queryNil : Query :=
  [ {| GroupOperator := "AND";
       Operands := [ {| Path := "nick"; Operator := EQ; Value := Nil |} ] |} ].

(** [Query{{"AND", []Condition{{Path: "name", Operator: "=", Value: "go"}}}}] *)
Definition queryGo : Query :=
  [ {| GroupOperator := "AND";
       Operands := [ {| Path := "name"; Operator := EQ; Value := Str "go" |} ] |} ].

(** A struct with a pointer field that is [nil]:
    [struct { Name string `json:"name"`; Nick *string `json:"nick"` }]. *)
Definition withNilField : fts.Struct :=
  [ {| fts.Name := "name"; fts.Tag := ""; fts.Contents := Str "go" |};
    {| fts.Name := "nick"; fts.Tag := ""; fts.Contents := Nil |} ].

Definition dbNilField : DB := (InsertOne emptyDB "c" withNilField id1).1.

(** An order whose shipping address repeats its billing address:
    [struct { Billing struct{ Address struct{ City string } };
              Address struct{ City string }; Name string }]
    with the JSON names billing, address, city and name. *)
Definition order : fts.Struct :=
  [ {| fts.Name := "billing"; fts.Tag := "";
       fts.Contents := Map [("address", Map [("city", Str "Oslo")])] |};
    {| fts.Name := "address"; fts.Tag := "";
       fts.Contents := Map [("city", Str "Oslo")] |};
    {| fts.Name := "name"; fts.Tag := ""; fts.Contents := Str "go" |} ].

Definition dbOrder : DB := (InsertOne emptyDB "c" order id1).1.

(** The database after two inserts with the names go ox and ox. *)
Definition dbTwo : DB :=
  let db := (InsertOne emptyDB "c" (named "go ox") id1).1 in
  (InsertOne db "c" (named "ox") id2).1.


(** [Query{{"AND", []Condition{{Path: "name", Operator: "!=", Value: "go"}}}}] *)
Definition queryNotGo : Query :=
  [ {| GroupOperator := "AND";
       Operands := [ {| Path := "name"; Operator := NE; Value := Str "go" |} ] |} ].

(** The stored form of the document named ox, inserted under [id2]. *)
Definition storedOx : Document := [("name", Str "ox"); ("_id", Str id2)].

(** A generator that returns [id1], [id2] and [id3], in this order. *)
Definition threeIds (n : nat) : string := nth n [id1; id2; id3] "".

(** The database after [InsertMany] of the names go, ox and pi. *)
Definition dbMany : DB :=
  (InsertMany emptyDB "c" [named "go"; named "ox"; named "pi"] threeIds).1.

End Examples.

(** * Properties *)

(** ** Strings and lists *)

(** An operation whose result is known returns the state it computes. *)
Lemma result_pair {A B : Type} (p : A * B) (b : B) : p.2 = b → p = (p.1, b).
Proof. destruct p. simpl. by intros ->. Qed.

(** One more insert on the way to a database of the examples: the result of
    the call is evaluated, the state is the one the call computes. *)
Ltac inserted :=
  eapply reachable_insert; [|apply result_pair; vm_compute; reflexivity].

Lemma Split_not_nil (s : string) (sep : ascii) : Split s sep ≠ [].
Proof.
  induction s as [|c s IH]; simpl; [done|].
  destruct (Ascii.eqb c sep); [done|].
  by destruct (Split s sep).
Qed.

(** A key [collection ":" rest] starts, up to its first colon, with the
    collection name, as long as the name has no colon. *)
Lemma Split_key_prefix (collectionName rest : string) :
  hasColon collectionName = false →
  hd "" (Split (collectionName +:+ ":" +:+ rest) ":"%char) = collectionName.
Proof.
  induction collectionName as [|c s IH]; simpl; [done|].
  intros Hc. apply orb_false_iff in Hc as [Hc Hs].
  rewrite Hc. specialize (IH Hs).
  destruct (Split (s +:+ ":" +:+ rest) ":"%char) eqn:E; simpl in *.
  - by apply Split_not_nil in E.
  - by rewrite IH.
Qed.

Lemma append_inj_r (p s1 s2 : string) : p +:+ s1 = p +:+ s2 → s1 = s2.
Proof. induction p as [|c p IH]; simpl; [done|]. intros [= ?]. auto. Qed.

Lemma getDocumentKey_inj (collectionName id id' : string) :
  getDocumentKey collectionName id = getDocumentKey collectionName id' → id = id'.
Proof.
  unfold getDocumentKey. intros E.
  apply append_inj_r in E. by apply append_inj_r in E.
Qed.

Lemma filter_submseteq_bool {A : Type} (f : A → bool) (l k : list A) :
  l ⊆+ k → List.filter f l ⊆+ List.filter f k.
Proof.
  induction 1 as [|x l k _ IH|x y l|x l k _ IH|l k m _ IH1 _ IH2]; simpl.
  - done.
  - destruct (f x); [by constructor|done].
  - destruct (f x), (f y); try done. by constructor.
  - destruct (f x); [by constructor|done].
  - by etrans.
Qed.

Lemma NoDup_fst_filter_bool {A B : Type} (f : A * B → bool) (l : list (A * B)) :
  NoDup (map fst l) → NoDup (map fst (List.filter f l)).
Proof.
  induction l as [|e l IH]; simpl; [done|].
  intros Hnd. apply NoDup_cons in Hnd as [Hin Hnd].
  destruct (f e); simpl; [|by auto].
  apply NoDup_cons. split; [|by auto].
  intros Hin'. apply Hin.
  apply list_elem_of_fmap in Hin' as (e' & -> & He').
  apply list_elem_of_fmap. exists e'. split; [done|].
  apply list_elem_of_In, filter_In in He' as [He' _]. by apply list_elem_of_In.
Qed.

(** ** The walk over a document *)

Section Walk.
Context `{GoRuntime}.

(** [getPathValues] is the range over the map after [delete(document, "_id")]. *)
Lemma getPathValues_range (document : Document) (prefix : string) :
  getPathValues document prefix =
  flat_map (pathValuesOfEntry prefix) (mapDelete document "_id").
Proof.
  unfold getPathValues.
  induction document as [|[key value] rest IH]; [done|].
  change (pathValuesOf (Map ((key, value) :: rest)) prefix)
    with (if String.eqb key "_id" then pathValuesOf (Map rest) prefix
          else match value with
               | Map _ => pathValuesOf value key ++ pathValuesOf (Map rest) prefix
               | Slice _ => pathValuesOf (Map rest) prefix
               | _ =>
                   buildPathValue
                     (if String.eqb prefix "" then key else prefix +:+ "." +:+ key)
                     value :: pathValuesOf (Map rest) prefix
               end).
  cbn [mapDelete]. destruct (String.eqb key "_id"); [done|].
  cbn [flat_map]. rewrite <- IH.
  by destruct value.
Qed.

(** A slice contributes no path-value pair. *)
Lemma getPathValues_slice (key : string) (elems : list Any) (rest : Document)
    (prefix : string) :
  getPathValues ((key, Slice elems) :: rest) prefix = getPathValues rest prefix.
Proof.
  rewrite !getPathValues_range. cbn [mapDelete].
  by destruct (String.eqb key "_id").
Qed.

(** The resolution of a path stops with [ok = false] when a value that is
    not a map is reached while parts are left. *)
Lemma walkPath_not_map (v : Any) (part : string) (parts : list string) :
  (∀ m, v ≠ Map m) → walkPath v (part :: parts) = (Nil, false).
Proof. intros Hv. destruct v; try done. by destruct (Hv fields). Qed.

(** A key that is missing at the last part resolves to [nil] with
    [ok = true]: [v[part]] is read without the comma-ok form. *)
Lemma walkPath_missing_last (m : Document) (part : string) :
  mapHas m part = false → walkPath (Map m) [part] = (Nil, true).
Proof.
  intros Hm. simpl. f_equal.
  induction m as [|[k v] m IH]; simpl in *; [done|].
  destruct (String.eqb k part); [done|auto].
Qed.

End Walk.

(** ** The planner of [FindMany] *)

Section Planner.
Context `{GoRuntime}.

Lemma existsb_negb_forallb {A : Type} (f : A → bool) (l : list A) :
  existsb (λ x, negb (f x)) l = negb (forallb f l).
Proof.
  induction l as [|x l IH]; simpl; [done|].
  rewrite IH. by destruct (f x).
Qed.

Lemma nonempty_forallb_existsb {A : Type} (f : A → bool) (l : list A) :
  negb (Nat.eqb (length l) 0) && forallb f l = existsb f l && forallb f l.
Proof.
  destruct l as [|x l]; simpl; [done|].
  destruct (f x); simpl; [done|]. by rewrite andb_false_r.
Qed.

(** The loop over the groups raises the flag exactly when a group breaks
    its rule. *)
Lemma classifyGroups_groupRule (query : Query) (flag : bool) :
  classifyGroups query flag = flag || negb (forallb groupRule query).
Proof.
  revert flag. induction query as [|g query IH]; intros flag; simpl.
  - by destruct flag.
  - unfold groupRule at 1.
    destruct (String.eqb (GroupOperator g) "OR").
    + rewrite nonempty_forallb_existsb, existsb_negb_forallb.
      destruct (existsb _ (Operands g)), (forallb _ (Operands g)); simpl;
        rewrite ?IH; simpl; by destruct flag.
    + destruct (existsb _ (Operands g)); simpl; [apply IH|by destruct flag].
Qed.

Lemma fallbackToFullScan_indexEligible (query : Query) :
  fallbackToFullScan query = negb (indexEligible query).
Proof.
  unfold fallbackToFullScan, indexEligible.
  destruct query as [|g query]; [done|].
  change (Nat.ltb 0 (length (g :: query))) with true.
  change (Nat.eqb (length (g :: query)) 0) with false.
  by rewrite classifyGroups_groupRule.
Qed.

(** C5. [FindMany] takes the index branch exactly when the query is not
    empty and every top-level group satisfies its rule (an AND group has a
    condition with [=]; an OR group has conditions, all with [=]); for every
    other query, the empty one included, it scans the collection. *)
Theorem FindMany_planner (db : DB) (collectionName : string) (query : Query)
    (options : Options) :
  fallbackToFullScan query = negb (indexEligible query) ∧
  FindMany db collectionName query options =
    if indexEligible query
    then indexEvaluation db collectionName query options
    else fullScan db collectionName query options.
Proof.
  split; [apply fallbackToFullScan_indexEligible|].
  unfold FindMany. rewrite fallbackToFullScan_indexEligible.
  by destruct (indexEligible query).
Qed.

(** The empty query and an OR group without conditions are scanned. *)
Lemma indexEligible_empty : indexEligible [] = false.
Proof. done. Qed.

Lemma indexEligible_empty_or (query : Query) :
  indexEligible ({| GroupOperator := "OR"; Operands := [] |} :: query) = false.
Proof. done. Qed.

End Planner.

(** ** Insert, then find by id *)

Section InsertFind.
Context `{GoRuntime}.

(** [InsertOne] returns the id it was given by the generator. *)
Lemma InsertOne_Ok_id (db db' : DB) (collectionName : string)
    (document : fts.Struct) (id d : string) :
  InsertOne db collectionName document id = (db', Ok d) →
  d = id ∧
  store db' = <[getDocumentKey collectionName id :=
                  mapAssign (jsonObject document) "_id" (Str id)]> (store db).
Proof.
  unfold InsertOne.
  destruct (store db !! getDocumentKey collectionName id); [done|].
  destruct (fts.AddToIndex _ _ _ _) as [f [[]|e|]]; [|done..].
  by intros [= <- <-].
Qed.

(** C9. When [InsertOne(coll, r)] returns the id [d], [FindOneById(coll, d)]
    returns the map decoded from [r] with the field [_id] set to [d]. *)
Theorem FindOneById_after_InsertOne (db db' : DB) (collectionName : string)
    (r : fts.Struct) (id d : string) :
  InsertOne db collectionName r id = (db', Ok d) →
  FindOneById db' collectionName d =
    Ok (mapAssign (jsonObject r) "_id" (Str d)).
Proof.
  intros Hins. apply InsertOne_Ok_id in Hins as [-> Hstore].
  unfold FindOneById. by rewrite Hstore, lookup_insert_eq.
Qed.

End InsertFind.

Section InsertFindInputs.
#[local] Existing Instance integers.
#[local] Existing Instance asciiRuntime.

Lemma InsertOne_dbOne :
  InsertOne emptyDB "c" (named "go") id1 = (dbOne, Ok id1).
Proof. apply result_pair. vm_compute. reflexivity. Qed.

Lemma FindOneById_after_InsertOne_witness :
  (InsertOne emptyDB "c" (named "go") id1 = (dbOne, Ok id1)) ∧
  FindOneById dbOne "c" id1 = Ok [("name", Str "go"); ("_id", Str id1)].
Proof.
  split; [exact InsertOne_dbOne|].
  exact (FindOneById_after_InsertOne emptyDB dbOne "c" (named "go") id1 id1
           InsertOne_dbOne).
Defined.

End InsertFindInputs.

(** ** Path-value pairs of nested documents *)

Section PathValues.
Context `{GoRuntime}.

(** The recursive call of [getPathValues] gets the key alone as its prefix:
    below a second level of nesting the outer keys are lost. *)
Lemma getPathValues_nested_prefix (a b : string) (m : Document) :
  String.eqb a "_id" = false → String.eqb b "_id" = false →
  getPathValues [(a, Map [(b, Map m)])] "" = getPathValues m b.
Proof.
  intros Ha Hb. rewrite getPathValues_range. cbn [mapDelete]. rewrite Ha.
  cbn [flat_map pathValuesOfEntry snd fst]. rewrite app_nil_r.
  rewrite getPathValues_range. cbn [mapDelete]. rewrite Hb.
  cbn [flat_map pathValuesOfEntry snd fst]. by rewrite app_nil_r.
Qed.

(** C2, at the input [{"a": {"b": {"c": "x"}}}]: the leaf under the keys a,
    b and c is given the path [b.c], not [a.b.c]; at depth two the path is
    the full one, and a slice gives no pair. *)
Theorem getPathValues_depth_three :
  getPathValues [("a", Map [("b", Map [("c", Str "x")])])] "" = ["b.c=x"] ∧
  getPathValues [("a", Map [("b", Str "x")])] "" = ["a.b=x"] ∧
  getPathValues [("a", Slice [Str "x"; Str "y"])] "" = [].
Proof. done. Qed.

End PathValues.

(** ** Conditions on a path that does not resolve *)

Section MissingPath.
Context `{GoRuntime}.

(** A path that fails before its last part makes the condition false. *)
Lemma matchCondition_not_resolved (document : Document) (condition : Condition) :
  snd (getValueFromPath document (Path condition)) = false →
  matchCondition document condition = false.
Proof.
  unfold matchCondition.
  destruct (getValueFromPath document (Path condition)) as [value ok].
  simpl. by intros ->.
Qed.

(** A key that is missing at the only part of a path is read as [nil]: the
    condition is then compared against the rendering of [nil]. *)
Lemma matchCondition_missing_top_level (document : Document) (condition : Condition) :
  Split (Path condition) "."%char = [Path condition] →
  mapHas document (Path condition) = false →
  Operator condition = NE →
  matchCondition document condition =
    negb (String.eqb "<nil>" (Sprint (Value condition))).
Proof.
  intros Hsplit Hmiss Hop. unfold matchCondition, getValueFromPath.
  rewrite Hsplit, (walkPath_missing_last _ _ Hmiss), Hop. done.
Qed.

(** C3, at the document [{"name": "John"}]: the key age is missing, and the
    conditions [age != "30"] and [age = nil] both hold. *)
Theorem matchCondition_missing_key :
  getValueFromPath [("name", Str "John")] "age" = (Nil, true) ∧
  matchCondition [("name", Str "John")]
    {| Path := "age"; Operator := NE; Value := Str "30" |} = true ∧
  matchCondition [("name", Str "John")]
    {| Path := "age"; Operator := EQ; Value := Nil |} = true.
Proof. done. Qed.

End MissingPath.

(** ** Posting lists that are absent when [FindMany] reads them *)

Section AbsentPostingList.
Context `{GoRuntime}.

(** [FindMany] splits the bytes of an absent key like any other value, and
    [strings.Split("", ",")] is the list of the empty string. *)
Lemma idsOfOperand_absent (index : gmap string string) (collectionName : string)
    (operand : Condition) :
  index !! getIndexKey collectionName
             (buildPathValue (Path operand) (Str (Sprint (Value operand)))) = None →
  idsOfOperand index collectionName operand = [""].
Proof. unfold idsOfOperand, Get. by intros ->. Qed.

End AbsentPostingList.

Section FailingInputs.
#[local] Existing Instance integers.
#[local] Existing Instance asciiRuntime.

(** C6, at the empty database and the query [name = "Nobody"]: the posting
    list is absent, the empty string is counted once and is the candidate.
    With the query [nick = nil] the [nil] document loaded for that candidate
    passes the matcher, and the empty database answers with one document. *)
Theorem candidates_absent_posting_list :
  index emptyDB !! getIndexKey "c" "name=Nobody" = None ∧
  (countQuery (index emptyDB) "c" queryNobody).1 !! "" = Some 1 ∧
  candidates (index emptyDB) "c" queryNobody = [""] ∧
  FindMany emptyDB "c" queryNil {| Limit := 0 |} = [[]].
Proof. repeat split; vm_compute; reflexivity. Qed.

End FailingInputs.

(** ** Deleting a document with a [nil] field *)

Section NilField.
Context `{GoRuntime}.

Lemma deleteFields_nil (collectionName id : string) (document : Document)
    (index : gmap string string) :
  Nil ∈ map snd document →
  (fts.deleteFields collectionName id document index).2 = Panic.
Proof.
  revert index. induction document as [|[k v] rest IH]; intros index Hin; simpl in *.
  - by apply elem_of_nil in Hin.
  - apply elem_of_cons in Hin as [<-|Hin]; [done|].
    destruct v; auto.
Qed.

(** Every stored document that still has a [nil] field after the walk of
    [getPathValues] makes [DeleteOneById] panic. *)
Lemma DeleteOneById_panics (db : DB) (collectionName id : string) (document : Document) :
  store db !! getDocumentKey collectionName id = Some document →
  Nil ∈ map snd (documentAfterPathValues document) →
  (DeleteOneById db collectionName id).2 = Panic.
Proof.
  intros Hdoc Hnil. unfold DeleteOneById, FindOneById. rewrite Hdoc.
  unfold fts.DeleteFromIndex.
  pose proof (deleteFields_nil collectionName id _ (fts.textIndex (fts db)) Hnil) as Hp.
  destruct (fts.deleteFields _ _ _ _) as [idx r]. simpl in Hp. by subst r.
Qed.

End NilField.

Section NilFieldInput.
#[local] Existing Instance integers.
#[local] Existing Instance asciiRuntime.

(** C10, at a document with the field [nick] set to [nil]: the insert
    succeeds, the document is stored, and [DeleteOneById] panics. *)
Theorem DeleteOneById_nil_field_panics :
  reachable dbNilField ∧
  FindOneById dbNilField "c" id1 =
    Ok [("name", Str "go"); ("nick", Nil); ("_id", Str id1)] ∧
  (DeleteOneById dbNilField "c" id1).2 = Panic.
Proof.
  split; [inserted; constructor|].
  split; vm_compute; reflexivity.
Qed.

End NilFieldInput.

(** ** Full-text search *)

Section SearchOrder.
Context `{GoRuntime}.

Lemma intersection_sublist (a b : list string) : fts.intersection a b `sublist_of` b.
Proof. apply sublist_filter. Qed.

Lemma postingList_nil (f : fts.FTS) (collectionName token : string) :
  Nat.eqb (length (postingList f collectionName token)) 0 =
  String.eqb (Get (fts.textIndex f) (fts.getIndexKey collectionName token)) "".
Proof.
  unfold postingList.
  destruct (String.eqb (Get _ _) ""); [done|].
  pose proof (Split_not_nil (Get (fts.textIndex f)
                (fts.getIndexKey collectionName token)) ","%char).
  by destruct (Split _ _).
Qed.

(** One token of the loop of [Search], in terms of its posting list: an
    empty list is skipped; otherwise the ids found so far are replaced by the
    list when there are none, and filtered through it when there are some. *)
Lemma searchToken_postingList (f : fts.FTS) (collectionName token : string)
    (matchedIds : list string) :
  fts.searchToken collectionName (fts.textIndex f) matchedIds token =
  if Nat.eqb (length (postingList f collectionName token)) 0 then matchedIds
  else if Nat.eqb (length matchedIds) 0 then postingList f collectionName token
  else fts.intersection matchedIds (postingList f collectionName token).
Proof.
  rewrite postingList_nil. unfold fts.searchToken, postingList.
  by destruct (String.eqb (Get _ _) "").
Qed.

(** The loop of [Search] from any list of ids: with no posting list to read,
    the ids are unchanged; otherwise the result is drawn, in order, from the
    last posting list that is not empty. *)
Lemma searchTokens_last (f : fts.FTS) (collectionName : string)
    (tokens : list string) (matchedIds : list string) :
  match last (List.filter (λ ids, negb (Nat.eqb (length ids) 0))
                (map (postingList f collectionName) tokens)) with
  | None =>
      foldl (fts.searchToken collectionName (fts.textIndex f)) matchedIds tokens
      = matchedIds
  | Some ids =>
      foldl (fts.searchToken collectionName (fts.textIndex f)) matchedIds tokens
      `sublist_of` ids
  end.
Proof.
  induction tokens as [|token tokens IH] using rev_ind; [done|].
  rewrite foldl_app, map_app, List.filter_app, last_app. cbn [foldl map List.filter].
  rewrite searchToken_postingList.
  destruct (Nat.eqb (length (postingList f collectionName token)) 0);
    cbn [negb last]; [exact IH|].
  destruct (Nat.eqb (length (foldl _ matchedIds tokens)) 0);
    [done|apply intersection_sublist].
Qed.




(** When no analyzed token has a posting list, the search finds nothing. *)
Lemma Search_all_unknown (f : fts.FTS) (collectionName text : string) :
  nonEmptyPostingLists f collectionName text = [] →
  fts.Search f collectionName text = [].
Proof.
  intros Hn. unfold fts.Search.
  pose proof (searchTokens_last f collectionName (fts.analyze text) []) as Hl.
  unfold nonEmptyPostingLists in Hn. by rewrite Hn in Hl.
Qed.

Lemma stopwordFilter_stopwords (tokens : list string) :
  Forall (λ token, existsb (String.eqb token) fts.stopwords = true) tokens →
  fts.stopwordFilter tokens = [].
Proof.
  unfold fts.stopwordFilter.
  induction 1 as [|token tokens Hs _ IH]; [done|].
  cbn [List.filter]. rewrite Hs. exact IH.
Qed.

(** A text whose tokens are all stop words has no analyzed token. *)
Lemma analyze_stopwords (text : string) :
  Forall (λ token, existsb (String.eqb token) fts.stopwords = true)
    (fts.lowercaseFilter (fts.tokenize text)) →
  fts.analyze text = [].
Proof.
  intros Hs. unfold fts.analyze. by rewrite stopwordFilter_stopwords.
Qed.

End SearchOrder.

Section SearchInputs.
#[local] Existing Instance integers.
#[local] Existing Instance asciiRuntime.

(** On the database with the names go ox and ox: the search for go ox finds
    the one document that has both words, and a word that is in no document
    is skipped. *)
Example Search_dbTwo :
  fts.Search (fts dbTwo) "c" "go ox" = [id1] ∧
  fts.Search (fts dbTwo) "c" "go zz" = [id1] ∧
  fts.Search (fts dbTwo) "c" "the zz" = [] ∧
  Search dbTwo "c" "go ox" = Ok [[("name", Str "go ox"); ("_id", Str id1)]].
Proof. repeat split; vm_compute; reflexivity. Qed.


(** C8, at the database with the three names go, ox and pi: the three
    posting lists are disjoint, so no id is in all of them, but the search
    for go ox pi returns [id3]: once the ids found so far are empty, the
    next posting list replaces them. *)
Theorem Search_restarts_after_empty_intersection :
  reachable dbThree ∧
  nonEmptyPostingLists (fts dbThree) "c" "go ox pi" = [[id1]; [id2]; [id3]] ∧
  fts.Search (fts dbThree) "c" "go ox pi" = [id3] ∧
  inEveryPostingList (fts dbThree) "c" "go ox pi" id3 = false.
Proof.
  split; [do 3 inserted; constructor|].
  repeat split; vm_compute; reflexivity.
Qed.

End SearchInputs.

(** ** Delete *)

Section Delete.
Context `{GoRuntime}.

(** After a delete that returned without error the document is gone from
    the primary store. *)
Lemma FindOneById_after_DeleteOneById (db db' : DB) (collectionName id : string) :
  DeleteOneById db collectionName id = (db', Ok ()) →
  FindOneById db' collectionName id = Err ErrDocumentNotExists.
Proof.
  unfold DeleteOneById.
  destruct (FindOneById db collectionName id) as [document| |]; [|done..].
  destruct (fts.DeleteFromIndex _ _ _ _) as [f [[]| |]]; [|done..].
  intros [= <-]. unfold FindOneById. simpl. by rewrite lookup_delete_eq.
Qed.

(** The loop of [deleteDocumentFromIndex] stops at the first path-value pair
    whose posting list is absent or empty. *)
Lemma deletePathValues_stops (collectionName id pathValue : string)
    (rest : list string) (index : gmap string string) :
  Get index (getIndexKey collectionName pathValue) = "" →
  deletePathValues collectionName id (pathValue :: rest) index = index.
Proof. simpl. by intros ->. Qed.

End Delete.

Section DeleteInput.
#[local] Existing Instance integers.
#[local] Existing Instance asciiRuntime.

(** C4, at an order whose billing address and address name the same city:
    both give the path-value pair [address.city=Oslo]; the delete returns
    without error and the document is gone, but the loop over the pairs
    returned at the second of them, and the posting list of [name=go] still
    holds the id. *)
Theorem DeleteOneById_leaves_id_in_index :
  reachable dbOrder ∧
  getPathValues (mapAssign (jsonObject order) "_id" (Str id1)) ""
    = ["address.city=Oslo"; "address.city=Oslo"; "name=go"] ∧
  (DeleteOneById dbOrder "c" id1).2 = Ok () ∧
  FindOneById (DeleteOneById dbOrder "c" id1).1 "c" id1 = Err ErrDocumentNotExists ∧
  index (DeleteOneById dbOrder "c" id1).1 !! getIndexKey "c" "name=go" = Some id1.
Proof.
  split; [inserted; constructor|].
  repeat split; vm_compute; reflexivity.
Qed.

End DeleteInput.

(** ** [FindMany] against the scan of the collection *)

Section Refinement.
Context `{GoRuntime}.

(** Without a positive limit the loop keeps every match. *)
Lemma collect_unbounded (options : Options) (query : Query)
    (found documents : list Document) :
  (Limit options ≤ 0)%Z →
  collect options query found documents =
  documents ++ List.filter (λ document, matchQuery document query) found.
Proof.
  intros Hl. revert documents.
  induction found as [|document found IH]; intros documents; simpl.
  - by rewrite app_nil_r.
  - destruct (matchQuery document query); [|apply IH].
    replace (Z.ltb 0 (Limit options)) with false
      by (symmetry; apply Z.ltb_ge, Hl).
    simpl. rewrite IH. by rewrite <- app_assoc.
Qed.

Lemma fullScan_reference (db : DB) (collectionName : string) (query : Query) :
  fullScan db collectionName query {| Limit := 0 |} =
  referenceFindMany db collectionName query.
Proof. unfold fullScan. by rewrite collect_unbounded. Qed.

(** The candidate ids are the keys of a map: no id comes twice. *)
Lemma candidates_NoDup (index : gmap string string) (collectionName : string)
    (query : Query) :
  NoDup (candidates index collectionName query).
Proof.
  unfold candidates.
  destruct (countQuery index collectionName query) as [counts required].
  apply NoDup_fst_filter_bool, (NoDup_fst_map_to_list counts).
Qed.

Lemma storedEntries_elem_of (db : DB) (collectionName : string)
    (ids : list string) (entry : string * Document) :
  entry ∈ storedEntries db collectionName ids →
  ∃ id, id ∈ ids ∧ entry.1 = getDocumentKey collectionName id
        ∧ store db !! entry.1 = Some entry.2.
Proof.
  unfold storedEntries. intros Hin.
  apply list_elem_of_omap in Hin as (id & Hid & Hentry).
  destruct (store db !! getDocumentKey collectionName id) as [document|] eqn:E;
    [|done].
  injection Hentry as <-. by exists id.
Qed.

Lemma storedEntries_NoDup (db : DB) (collectionName : string) (ids : list string) :
  NoDup ids → NoDup (storedEntries db collectionName ids).
Proof.
  induction 1 as [|id ids Hnotin Hnd IH]; [constructor|].
  unfold storedEntries. cbn [omap list_omap].
  destruct (store db !! getDocumentKey collectionName id) as [document|] eqn:E;
    simpl; [|exact IH].
  apply NoDup_cons. split; [|exact IH].
  intros Hin. apply storedEntries_elem_of in Hin as (id' & Hid' & Hkey & _).
  simpl in Hkey. apply getDocumentKey_inj in Hkey. by subst id'.
Qed.

(** A candidate without a stored document is the [nil] map; when the query
    rejects it, the matches among the candidates are the matches among the
    stored entries. *)
Lemma filter_candidateDocuments (db : DB) (collectionName : string)
    (query : Query) (ids : list string) :
  matchQuery [] query = false →
  List.filter (λ document, matchQuery document query)
    (map (candidateDocument db collectionName) ids) =
  List.filter (λ document, matchQuery document query)
    (map snd (storedEntries db collectionName ids)).
Proof.
  intros Hnil. unfold storedEntries.
  induction ids as [|id ids IH]; [done|].
  cbn [map omap list_omap]. unfold candidateDocument at 1, FindOneById.
  destruct (store db !! getDocumentKey collectionName id) as [document|];
    simpl.
  - destruct (matchQuery document query); [f_equal|]; apply IH.
  - rewrite Hnil. apply IH.
Qed.

Lemma map_submseteq {A B : Type} (f : A → B) (l k : list A) :
  l ⊆+ k → map f l ⊆+ map f k.
Proof. apply (fmap_submseteq f). Qed.

(** Every stored entry of a candidate is an entry the scan keeps. *)
Lemma storedEntries_scanned (db : DB) (collectionName : string) (ids : list string) :
  hasColon collectionName = false →
  NoDup ids →
  storedEntries db collectionName ids ⊆+
  List.filter
    (λ e : string * Document,
       String.eqb (hd "" (Split e.1 ":"%char)) collectionName)
    (Iterate (store db)).
Proof.
  intros Hc Hnd. apply NoDup_submseteq; [by apply storedEntries_NoDup|].
  intros [key document] Hin.
  apply storedEntries_elem_of in Hin as (id & _ & Hkey & Hdoc). simpl in *.
  apply list_elem_of_In, filter_In. split.
  - apply list_elem_of_In. unfold Iterate.
    rewrite merge_sort_Permutation. by apply elem_of_map_to_list.
  - simpl. rewrite Hkey. unfold getDocumentKey.
    rewrite Split_key_prefix by done. apply String.eqb_refl.
Qed.

Lemma indexEvaluation_reference (db : DB) (collectionName : string) (query : Query) :
  hasColon collectionName = false →
  matchQuery [] query = false →
  indexEvaluation db collectionName query {| Limit := 0 |} ⊆+
  referenceFindMany db collectionName query.
Proof.
  intros Hc Hnil. unfold indexEvaluation, referenceFindMany, scanned.
  rewrite collect_unbounded by done. simpl.
  rewrite filter_candidateDocuments by done.
  apply filter_submseteq_bool, map_submseteq, storedEntries_scanned; [done|].
  apply candidates_NoDup.
Qed.

(** In any state of the stores, [FindMany] without a limit returns exactly
    the list of the reference evaluation when the query is not
    index-eligible.  When the query is index-eligible, the collection name
    has no colon and the [nil] document does not match the query, it returns
    no document that the reference evaluation does not return. *)
Lemma FindMany_within_reference (db : DB) (collectionName : string) (query : Query) :
  (indexEligible query = true →
   hasColon collectionName = false ∧ matchQuery [] query = false) →
  if indexEligible query
  then FindMany db collectionName query {| Limit := 0 |}
       ⊆+ referenceFindMany db collectionName query
  else FindMany db collectionName query {| Limit := 0 |}
       = referenceFindMany db collectionName query.
Proof.
  intros Hq.
  unfold FindMany. rewrite fallbackToFullScan_indexEligible, negb_involutive.
  destruct (indexEligible query).
  - destruct (Hq eq_refl) as [Hc Hnil]. by apply indexEvaluation_reference.
  - apply fullScan_reference.
Qed.

End Refinement.

Section RefinementInputs.
#[local] Existing Instance integers.
#[local] Existing Instance asciiRuntime.

(** On the database with one document, the query [name = "go"] and the empty
    query both return it. *)
Example FindMany_dbOne :
  FindMany dbOne "c" queryGo {| Limit := 0 |}
    = [[("name", Str "go"); ("_id", Str id1)]] ∧
  FindMany dbOne "c" [] {| Limit := 0 |}
    = [[("name", Str "go"); ("_id", Str id1)]].
Proof. split; vm_compute; reflexivity. Qed.

(** C1, as stated, fails on the database with one document and the query
    [_id = id1]: the id is not in the secondary index, so the index branch
    finds nothing, while the scan with the matcher finds the document. *)
Lemma FindMany_misses_scanned_document :
  reachable dbOne ∧
  indexEligible queryById = true ∧
  FindMany dbOne "c" queryById {| Limit := 0 |} = [] ∧
  referenceFindMany dbOne "c" queryById = [[("name", Str "go"); ("_id", Str id1)]] ∧
  ¬ (FindMany dbOne "c" queryById {| Limit := 0 |}
     ≡ₚ referenceFindMany dbOne "c" queryById).
Proof.
  assert (Hf : FindMany dbOne "c" queryById {| Limit := 0 |} = [])
    by (vm_compute; reflexivity).
  assert (Hr : referenceFindMany dbOne "c" queryById
               = [[("name", Str "go"); ("_id", Str id1)]])
    by (vm_compute; reflexivity).
  split; [inserted; constructor|].
  split; [reflexivity|]. split; [exact Hf|]. split; [exact Hr|].
  rewrite Hf, Hr. intros Hp. by apply Permutation_nil_l in Hp.
Qed.

End RefinementInputs.

(** * Further properties of the code *)

(** ** [FindMany]: limit, verification, [FindOne] *)

Section Limits.
Context `{GoRuntime}.

(** With a positive limit the loop returns the first [Limit] matches. *)
Lemma collect_bounded (options : Options) (query : Query)
    (found documents : list Document) :
  (Z.of_nat (length documents) < Limit options)%Z →
  collect options query found documents =
  take (Z.to_nat (Limit options))
    (documents ++ List.filter (λ document, matchQuery document query) found).
Proof.
  revert documents.
  induction found as [|document found IH]; intros documents Hlen; simpl.
  - rewrite app_nil_r, take_ge; [done|lia].
  - destruct (matchQuery document query); [|by apply IH].
    replace (documents ++ document :: List.filter _ found)
      with ((documents ++ [document]) ++
            List.filter (λ document, matchQuery document query) found)
      by (by rewrite <- app_assoc).
    replace (Z.ltb 0 (Limit options)) with true by (symmetry; apply Z.ltb_lt; lia).
    simpl. destruct (Z.leb_spec (Limit options)
                       (Z.of_nat (length (documents ++ [document])))) as [Hle|Hlt].
    + rewrite length_app in Hle. simpl in Hle.
      rewrite take_app_length'; [done|]. rewrite length_app. simpl. lia.
    + by apply IH.
Qed.

Lemma FindMany_take (db : DB) (collectionName : string) (query : Query) (k : Z) :
  (0 < k)%Z →
  FindMany db collectionName query {| Limit := k |} =
  take (Z.to_nat k) (FindMany db collectionName query {| Limit := 0 |}).
Proof.
  intros Hk. unfold FindMany, indexEvaluation, fullScan.
  destruct (negb (fallbackToFullScan query));
    rewrite collect_bounded, collect_unbounded by (simpl; lia); done.
Qed.

(** X1. With a limit [k > 0], [FindMany] returns [min k n] documents, where
    [n] is the number it returns without a limit, and returns none that it
    does not return without a limit. *)
Theorem FindMany_limit (db : DB) (collectionName : string) (query : Query) (k : Z) :
  (0 < k)%Z →
  length (FindMany db collectionName query {| Limit := k |}) =
    Nat.min (Z.to_nat k)
      (length (FindMany db collectionName query {| Limit := 0 |}))
  ∧ FindMany db collectionName query {| Limit := k |}
    ⊆+ FindMany db collectionName query {| Limit := 0 |}.
Proof.
  intros Hk. rewrite FindMany_take by done. split.
  - apply length_take.
  - apply sublist_submseteq, sublist_take.
Qed.

(** A limit that is not positive is no limit. *)
Lemma FindMany_no_limit (db : DB) (collectionName : string) (query : Query)
    (options : Options) :
  (Limit options ≤ 0)%Z →
  FindMany db collectionName query options =
  FindMany db collectionName query {| Limit := 0 |}.
Proof.
  intros Hk. unfold FindMany, indexEvaluation, fullScan.
  destruct (negb (fallbackToFullScan query));
    rewrite !collect_unbounded by (simpl; lia); done.
Qed.

Lemma collect_Forall (P : Document → Prop) (options : Options) (query : Query)
    (found documents : list Document) :
  (∀ document, matchQuery document query = true → P document) →
  Forall P documents →
  Forall P (collect options query found documents).
Proof.
  intros HP. revert documents.
  induction found as [|document found IH]; intros documents Hd; simpl; [done|].
  destruct (matchQuery document query) eqn:E; [|by apply IH].
  assert (Forall P (documents ++ [document])).
  { apply Forall_app. split; [done|]. constructor; [by apply HP|constructor]. }
  destruct (_ && _); [done|by apply IH].
Qed.

(** X2. Every document that [FindMany] returns matches the whole query,
    on the index branch as on the scan, with any limit. *)
Theorem FindMany_matches (db : DB) (collectionName : string) (query : Query)
    (options : Options) :
  Forall (λ document, matchQuery document query = true)
    (FindMany db collectionName query options).
Proof.
  unfold FindMany, indexEvaluation, fullScan.
  destruct (negb (fallbackToFullScan query)); by apply collect_Forall.
Qed.

(** X3. [FindOne] returns [ErrNoDocuments] exactly when [FindMany] without a
    limit returns nothing; otherwise it returns a document that matches the
    query and that [FindMany] returns too. *)
Theorem FindOne_FindMany (db : DB) (collectionName : string) (query : Query) :
  match FindOne db collectionName query with
  | Ok document =>
      matchQuery document query = true
      ∧ document ∈ FindMany db collectionName query {| Limit := 0 |}
  | Err e =>
      e = ErrNoDocuments
      ∧ FindMany db collectionName query {| Limit := 0 |} = []
  | Panic => False
  end.
Proof.
  unfold FindOne.
  assert (Forall (λ document, matchQuery document query = true)
            (FindMany db collectionName query {| Limit := 1 |})) as Hm.
  { unfold FindMany, indexEvaluation, fullScan.
    destruct (negb (fallbackToFullScan query)); by apply collect_Forall. }
  rewrite FindMany_take in * by done.
  destruct (FindMany db collectionName query {| Limit := 0 |}) as [|document rest];
    simpl in *; [done|].
  split; [by inversion Hm|left].
Qed.

End Limits.

(** ** Keys *)

Lemma hasColon_hasChar (s : string) : hasColon s = hasChar ":"%char s.
Proof. induction s as [|c s IH]; simpl; [done|]. by rewrite IH. Qed.

(** For collection names without a colon, the key of a document tells the
    collection and the id: two pairs with the same key are the same. *)
Lemma getDocumentKey_pair_inj (collectionName collectionName' id id' : string) :
  hasColon collectionName = false → hasColon collectionName' = false →
  getDocumentKey collectionName id = getDocumentKey collectionName' id' →
  collectionName = collectionName' ∧ id = id'.
Proof.
  intros Hc Hc' Hkey.
  assert (collectionName = collectionName') as <-.
  { rewrite <- (Split_key_prefix collectionName id Hc).
    rewrite <- (Split_key_prefix collectionName' id' Hc').
    unfold getDocumentKey in Hkey. by rewrite Hkey. }
  split; [done|]. by apply getDocumentKey_inj in Hkey.
Qed.

(** ** The scan *)

Section Scan.
Context `{GoRuntime}.

Lemma scanned_elem_of (db : DB) (collectionName : string) (document : Document) :
  document ∈ scanned db collectionName ↔
  ∃ key, store db !! key = Some document
         ∧ hd "" (Split key ":"%char) = collectionName.
Proof.
  unfold scanned. rewrite list_elem_of_In, in_map_iff. split.
  - intros ([key d] & <- & Hin). apply filter_In in Hin as [Hin Hp].
    exists key. split.
    + apply list_elem_of_In in Hin. unfold Iterate in Hin.
      rewrite merge_sort_Permutation in Hin. by apply elem_of_map_to_list in Hin.
    + by apply String.eqb_eq in Hp.
  - intros (key & Hdoc & Hp). exists (key, document). split; [done|].
    apply filter_In. split.
    + apply list_elem_of_In. unfold Iterate.
      rewrite merge_sort_Permutation. by apply elem_of_map_to_list.
    + by apply String.eqb_eq.
Qed.

(** X4. When the query is not index-eligible, [FindMany] without a limit
    returns every document of the collection that matches it: a document
    that [FindOneById] finds under a collection name without a colon and that
    the matcher accepts is in the result.  With the empty query these are
    all the documents of the collection. *)
Theorem FindMany_scan_complete (db : DB) (collectionName id : string)
    (document : Document) (query : Query) :
  hasColon collectionName = false →
  indexEligible query = false →
  FindOneById db collectionName id = Ok document →
  matchQuery document query = true →
  document ∈ FindMany db collectionName query {| Limit := 0 |}.
Proof.
  intros Hc Hq Hfind Hm.
  unfold FindMany. rewrite fallbackToFullScan_indexEligible, Hq. simpl.
  rewrite fullScan_reference. unfold referenceFindMany.
  apply list_elem_of_In, filter_In. split; [|done].
  apply list_elem_of_In, scanned_elem_of.
  exists (getDocumentKey collectionName id). split.
  - unfold FindOneById in Hfind.
    destruct (store db !! getDocumentKey collectionName id); by inversion Hfind.
  - by apply Split_key_prefix.
Qed.

End Scan.

(** ** Inserts *)

Section Inserts.
Context `{GoRuntime}.

(** What an insert does to the primary store, whatever it returns. *)
Lemma InsertOne_store (db : DB) (collectionName : string) (document : fts.Struct)
    (id : string) :
  store (InsertOne db collectionName document id).1 =
  match store db !! getDocumentKey collectionName id with
  | Some _ => store db
  | None =>
      <[getDocumentKey collectionName id :=
          mapAssign (jsonObject document) "_id" (Str id)]> (store db)
  end.
Proof.
  unfold InsertOne.
  destruct (store db !! getDocumentKey collectionName id); [done|].
  by destruct (fts.AddToIndex _ _ _ _) as [f [[]|e|]].
Qed.

(** An insert never replaces a stored document. *)
Lemma InsertOne_preserves (db : DB) (collectionName : string)
    (document : fts.Struct) (id key : string) (stored : Document) :
  store db !! key = Some stored →
  store (InsertOne db collectionName document id).1 !! key = Some stored.
Proof.
  intros Hs. rewrite InsertOne_store.
  destruct (store db !! getDocumentKey collectionName id) eqn:E; [done|].
  rewrite lookup_insert_ne; [done|]. intros <-. congruence.
Qed.

(** X5. An id that [InsertOne] has returned cannot be inserted again into
    the same collection: the second insert returns [ErrDuplicateKey] and
    changes nothing. *)
Theorem InsertOne_twice (db db' : DB) (collectionName : string)
    (document document' : fts.Struct) (id d : string) :
  InsertOne db collectionName document id = (db', Ok d) →
  InsertOne db' collectionName document' d = (db', Err (ErrDuplicateKey d)).
Proof.
  intros Hins. apply InsertOne_Ok_id in Hins as [-> Hstore].
  unfold InsertOne. by rewrite Hstore, lookup_insert_eq.
Qed.

(** X6. An insert, whatever it returns, leaves every other document as it
    was: [FindOneById] for another pair of a collection and an id (the
    collection names without a colon) returns what it returned before. *)
Theorem InsertOne_other (db : DB) (collectionName collectionName' : string)
    (document : fts.Struct) (id id' : string) :
  hasColon collectionName = false → hasColon collectionName' = false →
  (collectionName, id) ≠ (collectionName', id') →
  FindOneById (InsertOne db collectionName document id).1 collectionName' id' =
  FindOneById db collectionName' id'.
Proof.
  intros Hc Hc' Hne. unfold FindOneById. rewrite InsertOne_store.
  destruct (store db !! getDocumentKey collectionName id); [done|].
  rewrite lookup_insert_ne; [done|].
  intros Hkey. apply getDocumentKey_pair_inj in Hkey as [-> ->]; done.
Qed.

(** After an insert that returned an id, the document is in the store. *)
Lemma FindOneById_after_InsertOne_store (db db' : DB) (collectionName : string)
    (document : fts.Struct) (id d : string) :
  InsertOne db collectionName document id = (db', Ok d) →
  d = id ∧
  store db' !! getDocumentKey collectionName id =
    Some (mapAssign (jsonObject document) "_id" (Str id)).
Proof.
  intros Hins. apply InsertOne_Ok_id in Hins as [-> Hstore].
  split; [done|]. by rewrite Hstore, lookup_insert_eq.
Qed.

Lemma InsertMany_preserves (db : DB) (collectionName : string)
    (documents : list fts.Struct) (ids : nat → string) (key : string)
    (stored : Document) :
  store db !! key = Some stored →
  store (InsertMany db collectionName documents ids).1 !! key = Some stored.
Proof.
  revert db ids. induction documents as [|document rest IH]; intros db ids Hs;
    simpl; [done|].
  pose proof (InsertOne_preserves db collectionName document (ids 0) key stored Hs)
    as Hs1.
  destruct (InsertOne db collectionName document (ids 0)) as [db1 [id|e|]];
    simpl in *; [|done..].
  specialize (IH db1 (λ n, ids (S n)) Hs1).
  by destruct (InsertMany db1 collectionName rest _) as [db2 [l|e|]].
Qed.

(** X7. When [InsertMany] returns ids, these are the generated ids in the
    order of the documents, and [FindOneById] finds under each id the map of
    its document with the field [_id]. *)
Theorem InsertMany_Ok (db db' : DB) (collectionName : string)
    (documents : list fts.Struct) (ids : nat → string) (inserted : list string) :
  InsertMany db collectionName documents ids = (db', Ok inserted) →
  inserted = map ids (seq 0 (length documents))
  ∧ Forall2 (λ document id,
       FindOneById db' collectionName id =
         Ok (mapAssign (jsonObject document) "_id" (Str id)))
      documents inserted.
Proof.
  revert db ids inserted.
  induction documents as [|document rest IH]; intros db ids inserted; simpl.
  - intros [= <- <-]. split; [done|constructor].
  - destruct (InsertOne db collectionName document (ids 0)) as [db1 [id|e|]] eqn:E1;
      [|done..].
    destruct (InsertMany db1 collectionName rest (λ n, ids (S n)))
      as [db2 [l|e|]] eqn:E2; [|done..].
    intros [= <- <-].
    destruct (IH _ _ _ E2) as [-> Hfind].
    pose proof (FindOneById_after_InsertOne_store db db1 collectionName document
                  (ids 0) id E1) as [-> Hfirst].
    split.
    + simpl. f_equal. by rewrite <- seq_shift, map_map.
    + constructor; [|done].
      unfold FindOneById.
      pose proof (InsertMany_preserves db1 collectionName rest (λ n, ids (S n))
                    _ _ Hfirst) as Hkeep.
      rewrite E2 in Hkeep. simpl in Hkeep. by rewrite Hkeep.
Qed.

End Inserts.

(** ** What inserts and deletes return *)

Section Outcomes.
Context `{GoRuntime}.

Lemma addTags_outcome (collectionName id : string) (fieldValue : Any)
    (tagValues : list string) (index : gmap string string) :
  (fts.addTags collectionName id fieldValue tagValues index).2 =
  if existsb (λ tag, String.eqb tag "textIndex") tagValues && negb (isStr fieldValue)
  then Panic else Ok ().
Proof.
  revert index. induction tagValues as [|tag rest IH]; intros index; simpl; [done|].
  destruct (String.eqb tag "textIndex"); simpl; [|apply IH].
  destruct fieldValue; simpl; try done.
  rewrite IH. simpl. by rewrite andb_false_r.
Qed.

Lemma addFields_outcome (collectionName id : string) (fields : fts.Struct)
    (index : gmap string string) :
  (fts.addFields collectionName id fields index).2 =
  if forallb (λ field, negb (textIndexed field) || isStr (fts.Contents field)) fields
  then Ok () else Panic.
Proof.
  revert index. induction fields as [|field rest IH]; intros index; simpl; [done|].
  pose proof (addTags_outcome collectionName id (fts.Contents field)
                (Split (fts.Tag field) ";"%char) index) as Ht.
  destruct (fts.addTags _ _ _ _ _) as [index' r]. simpl in Ht. subst r.
  unfold textIndexed.
  destruct (existsb _ (Split (fts.Tag field) ";"%char)),
    (isStr (fts.Contents field)); simpl; try done; apply IH.
Qed.

(** X8. [InsertOne] returns [ErrDuplicateKey] when the key of the new id is
    taken; otherwise it returns the id when every field tagged [textIndex]
    is a string, and panics when one is not. *)
Theorem InsertOne_outcome (db : DB) (collectionName : string)
    (document : fts.Struct) (id : string) :
  (InsertOne db collectionName document id).2 =
  match store db !! getDocumentKey collectionName id with
  | Some _ => Err (ErrDuplicateKey id)
  | None =>
      if forallb (λ field, negb (textIndexed field) || isStr (fts.Contents field))
           document
      then Ok id else Panic
  end.
Proof.
  unfold InsertOne.
  destruct (store db !! getDocumentKey collectionName id); [done|].
  unfold fts.AddToIndex.
  pose proof (addFields_outcome collectionName id document
                (fts.textIndex (fts db))) as Ho.
  destruct (fts.addFields _ _ _ _) as [index' r]. simpl in Ho. subst r.
  by destruct (forallb _ document).
Qed.

Lemma deleteFields_outcome (collectionName id : string) (document : Document)
    (index : gmap string string) :
  (fts.deleteFields collectionName id document index).2 =
  if existsb isNil (map snd document) then Panic else Ok ().
Proof.
  revert index. induction document as [|[k v] rest IH]; intros index; simpl; [done|].
  destruct v; simpl; try done; apply IH.
Qed.

(** The top-level [nil] fields that are left after [getPathValues] are
    those of the document, the field [_id] apart. *)
Lemma documentAfterPathValues_nil (document : Document) :
  existsb isNil (map snd (documentAfterPathValues document)) =
  existsb (λ entry : string * Any,
             negb (String.eqb entry.1 "_id") && isNil entry.2) document.
Proof.
  unfold documentAfterPathValues. simpl.
  induction document as [|[key value] rest IH]; simpl; [done|].
  destruct (String.eqb key "_id"); simpl; [done|].
  rewrite IH. by destruct value.
Qed.

(** X9. [DeleteOneById] returns [ErrDocumentNotExists] when there is no
    document under the id; it panics when the stored document has a [nil]
    field at the top level, other than [_id]; in every other case it
    returns without error. *)
Theorem DeleteOneById_outcome (db : DB) (collectionName id : string) :
  (DeleteOneById db collectionName id).2 =
  match store db !! getDocumentKey collectionName id with
  | None => Err ErrDocumentNotExists
  | Some document =>
      if existsb (λ entry : string * Any,
                    negb (String.eqb entry.1 "_id") && isNil entry.2) document
      then Panic else Ok ()
  end.
Proof.
  unfold DeleteOneById, FindOneById.
  destruct (store db !! getDocumentKey collectionName id) as [document|]; [|done].
  unfold fts.DeleteFromIndex.
  pose proof (deleteFields_outcome collectionName id
                (documentAfterPathValues document) (fts.textIndex (fts db))) as Ho.
  destruct (fts.deleteFields _ _ _ _) as [index' r]. simpl in Ho. subst r.
  rewrite documentAfterPathValues_nil. by destruct (existsb _ document).
Qed.

(** What a delete does to the primary store, whatever it returns. *)
Lemma DeleteOneById_store (db : DB) (collectionName id : string) :
  store (DeleteOneById db collectionName id).1 =
  match (DeleteOneById db collectionName id).2 with
  | Ok _ => delete (getDocumentKey collectionName id) (store db)
  | _ => store db
  end.
Proof.
  unfold DeleteOneById.
  destruct (FindOneById db collectionName id) as [document| |]; [|done..].
  by destruct (fts.DeleteFromIndex _ _ _ _) as [f [[]| |]].
Qed.

(** X10. After [DeleteOneById] has returned without error, [FindOneById]
    returns [ErrDocumentNotExists] for the id, and a second delete returns
    [ErrDocumentNotExists] and changes nothing. *)
Theorem DeleteOneById_twice (db db' : DB) (collectionName id : string) :
  DeleteOneById db collectionName id = (db', Ok ()) →
  FindOneById db' collectionName id = Err ErrDocumentNotExists
  ∧ DeleteOneById db' collectionName id = (db', Err ErrDocumentNotExists).
Proof.
  intros Hdel.
  pose proof (FindOneById_after_DeleteOneById _ _ _ _ Hdel) as Hfind.
  split; [done|]. unfold DeleteOneById. by rewrite Hfind.
Qed.

(** X11. A delete, whatever it returns, leaves every other document as it
    was: [FindOneById] for another pair of a collection and an id (the
    collection names without a colon) returns what it returned before. *)
Theorem DeleteOneById_other (db : DB) (collectionName collectionName' id id' : string) :
  hasColon collectionName = false → hasColon collectionName' = false →
  (collectionName, id) ≠ (collectionName', id') →
  FindOneById (DeleteOneById db collectionName id).1 collectionName' id' =
  FindOneById db collectionName' id'.
Proof.
  intros Hc Hc' Hne. unfold FindOneById. rewrite DeleteOneById_store.
  destruct ((DeleteOneById db collectionName id).2) as [[]| |]; [|done..].
  rewrite lookup_delete_ne; [done|].
  intros Hkey. apply getDocumentKey_pair_inj in Hkey as [-> ->]; done.
Qed.

End Outcomes.

(** ** [Clear] *)

Section Clearing.
Context `{GoRuntime}.

Lemma foldl_delete_lookup {V : Type} (entries : list (string * V))
    (kv : gmap string V) (key : string) :
  foldl (λ kv (e : string * V), delete e.1 kv) kv entries !! key =
  if decide (key ∈ entries.*1) then None else kv !! key.
Proof.
  revert kv. induction entries as [|[k v] entries IH]; intros kv; [done|].
  cbn [foldl]. rewrite IH, fmap_cons. cbn [fst]. clear IH.
  destruct (decide (key ∈ entries.*1)) as [Hin|Hnin],
    (decide (key ∈ k :: entries.*1)) as [Hin'|Hnin']; try done.
  - destruct Hnin'. by right.
  - apply elem_of_cons in Hin' as [->|?]; [by rewrite lookup_delete_eq|done].
  - rewrite lookup_delete_ne; [done|]. intros ->. apply Hnin'. left.
Qed.

Lemma clearStore_empty {V : Type} (kv : gmap string V) : clearStore kv = ∅.
Proof.
  apply map_eq. intros key. rewrite lookup_empty. unfold clearStore.
  rewrite foldl_delete_lookup.
  destruct (decide (key ∈ (Iterate kv).*1)) as [Hin|Hnin]; [done|].
  destruct (kv !! key) as [v|] eqn:E; [|done].
  destruct Hnin. apply list_elem_of_fmap. exists (key, v). split; [done|].
  unfold Iterate. rewrite merge_sort_Permutation. by apply elem_of_map_to_list.
Qed.

(** X12. [Clear] leaves the three stores empty: the database is then the one
    that [Open] gives on a fresh path. *)
Theorem Clear_empty (db : DB) : Clear db = emptyDB.
Proof.
  unfold Clear, emptyDB, fts.Clear. rewrite !clearStore_empty.
  f_equal. f_equal. apply (clearStore_empty (fts.textIndex (fts db))).
Qed.

End Clearing.

(** ** Posting lists as strings *)

Lemma Split_without_sep (s : string) (sep : ascii) :
  hasChar sep s = false → Split s sep = [s].
Proof.
  induction s as [|c s IH]; simpl; [done|].
  intros Hs. apply orb_false_iff in Hs as [Hc Hs].
  rewrite Hc, (IH Hs). done.
Qed.

Lemma Split_app_sep (s t : string) (sep : ascii) :
  Split (s +:+ String sep t) sep = Split s sep ++ Split t sep.
Proof.
  induction s as [|c s IH]; simpl.
  - by rewrite Ascii.eqb_refl.
  - destruct (Ascii.eqb c sep); rewrite IH; [done|].
    pose proof (Split_not_nil s sep). by destruct (Split s sep).
Qed.

Lemma Split_pieces (s : string) (sep : ascii) :
  Forall (λ piece, hasChar sep piece = false) (Split s sep).
Proof.
  induction s as [|c s IH]; simpl; [by repeat constructor|].
  destruct (Ascii.eqb c sep) eqn:E; [by constructor|].
  destruct (Split s sep) as [|piece pieces].
  - constructor; [|constructor]. simpl. by rewrite E.
  - inversion IH; subst. constructor; [|done]. simpl. by rewrite E.
Qed.

(** Joining ids with commas and splitting at the commas gives the ids back,
    for one id or more, none with a comma. *)
Lemma Split_Join (ids : list string) (sep : ascii) :
  ids ≠ [] → Forall (λ id, hasChar sep id = false) ids →
  Split (Join ids (String sep "")) sep = ids.
Proof.
  induction ids as [|id ids IH]; [done|]. intros _ Hids.
  inversion Hids as [|? ? Hid Hrest]; subst.
  destruct ids as [|id' ids].
  - simpl. by apply Split_without_sep.
  - change (Join (id :: id' :: ids) (String sep ""))
      with (id +:+ String sep (Join (id' :: ids) (String sep ""))).
    rewrite Split_app_sep, IH by done. by rewrite Split_without_sep.
Qed.

Lemma existsb_eqb_elem_of (x : string) (l : list string) :
  existsb (String.eqb x) l = true ↔ x ∈ l.
Proof.
  rewrite existsb_exists. split.
  - intros (y & Hin & Heq). apply String.eqb_eq in Heq as <-.
    by apply list_elem_of_In.
  - intros Hin. exists x. split; [by apply list_elem_of_In|apply String.eqb_refl].
Qed.

Lemma append_nonempty_r (s t : string) : t ≠ "" → s +:+ t ≠ "".
Proof. destruct s; [done|]. simpl. discriminate. Qed.

Lemma plainId_spec (id : string) :
  plainId id = true →
  id ≠ "" ∧ hasChar ","%char id = false ∧ hasChar ":"%char id = false.
Proof.
  unfold plainId. intros Hp.
  apply andb_true_iff in Hp as [Hp Hcolon]. apply andb_true_iff in Hp as [Hne Hcomma].
  split; [|split]; [|by apply negb_true_iff..].
  intros ->. done.
Qed.

(** The ids of the value that [addId] writes. *)
Lemma Split_addId (idsString id : string) :
  hasChar ","%char id = false →
  Split (addId idsString id) ","%char =
  if String.eqb idsString "" then [id]
  else if existsb (String.eqb id) (Split idsString ","%char)
       then Split idsString ","%char
       else Split idsString ","%char ++ [id].
Proof.
  intros Hid. unfold addId.
  destruct (String.eqb idsString ""); [by apply Split_without_sep|].
  destruct (existsb _ _); simpl; [done|].
  change (idsString +:+ "," +:+ id) with (idsString +:+ String ","%char id).
  by rewrite Split_app_sep, (Split_without_sep id).
Qed.

Lemma addId_nonempty (idsString id : string) : id ≠ "" → addId idsString id ≠ "".
Proof.
  intros Hid. unfold addId.
  destruct (String.eqb idsString "") eqn:E; [done|].
  apply String.eqb_neq in E.
  destruct (existsb _ _); simpl; [done|]. by apply append_nonempty_r.
Qed.

Lemma Get_Some (kv : gmap string string) (key idsString : string) :
  kv !! key = Some idsString → Get kv key = idsString.
Proof. unfold Get. by intros ->. Qed.

Lemma Get_nonempty (kv : gmap string string) (key : string) :
  Get kv key ≠ "" → kv !! key = Some (Get kv key).
Proof. unfold Get. by destruct (kv !! key). Qed.

Lemma idsAt_insert_eq (kv : gmap string string) (key idsString : string) :
  idsString ≠ "" →
  idsAt (<[key := idsString]> kv) key = Split idsString ","%char.
Proof.
  intros Hne. unfold idsAt, Get. rewrite lookup_insert_eq. simpl.
  apply String.eqb_neq in Hne. by rewrite Hne.
Qed.

Lemma idsAt_insert_ne (kv : gmap string string) (key key' idsString : string) :
  key ≠ key' → idsAt (<[key := idsString]> kv) key' = idsAt kv key'.
Proof. intros Hne. unfold idsAt, Get. by rewrite lookup_insert_ne. Qed.

Lemma idsAt_delete_ne (kv : gmap string string) (key key' : string) :
  key ≠ key' → idsAt (delete key kv) key' = idsAt kv key'.
Proof. intros Hne. unfold idsAt, Get. by rewrite lookup_delete_ne. Qed.

Lemma idsAt_elem_of_nonempty (kv : gmap string string) (key id : string) :
  id ∈ idsAt kv key → Get kv key ≠ "" ∧ id ∈ Split (Get kv key) ","%char.
Proof.
  unfold idsAt. destruct (String.eqb (Get kv key) "") eqn:E.
  - by intros ?%elem_of_nil.
  - by apply String.eqb_neq in E.
Qed.

(** Adding an id under a key lists the id there and removes no id anywhere. *)
Lemma idsAt_addId (kv : gmap string string) (key id : string) :
  id ≠ "" → hasChar ","%char id = false →
  id ∈ idsAt (<[key := addId (Get kv key) id]> kv) key.
Proof.
  intros Hne Hid. rewrite idsAt_insert_eq by (by apply addId_nonempty).
  rewrite Split_addId by done.
  destruct (String.eqb (Get kv key) ""); [left|].
  destruct (existsb _ _) eqn:E.
  - by apply existsb_eqb_elem_of.
  - apply elem_of_app. right. left.
Qed.

Lemma idsAt_addId_mono (kv : gmap string string) (key key' id x : string) :
  id ≠ "" → hasChar ","%char id = false →
  x ∈ idsAt kv key' → x ∈ idsAt (<[key := addId (Get kv key) id]> kv) key'.
Proof.
  intros Hne Hid Hx. destruct (decide (key = key')) as [<-|Hk].
  - rewrite idsAt_insert_eq by (by apply addId_nonempty).
    apply idsAt_elem_of_nonempty in Hx as [Hs Hx].
    rewrite Split_addId by done.
    apply String.eqb_neq in Hs. rewrite Hs.
    destruct (existsb _ _); [done|]. apply elem_of_app. by left.
  - by rewrite idsAt_insert_ne.
Qed.

(** The value written back when an id is removed lists the ids that stay. *)
Lemma Split_Join_removeId (idsString id : string) :
  removeId idsString id ≠ [] →
  Split (Join (removeId idsString id) ",") ","%char = removeId idsString id.
Proof.
  intros Hne. apply (Split_Join _ ","%char); [done|].
  unfold removeId. apply Forall_forall. intros x Hx.
  apply list_elem_of_filter in Hx as [_ Hx].
  pose proof (Split_pieces idsString ","%char) as Hp.
  rewrite Forall_forall in Hp. by apply Hp.
Qed.

Lemma removeId_not_elem_of (idsString id : string) : id ∉ removeId idsString id.
Proof. unfold removeId. intros Hin. by apply list_elem_of_filter in Hin as [? _]. Qed.

(** ** Posting lists stay in good form *)

Section WellFormed.
Context `{GoRuntime}.

Lemma wellFormedPostings_empty : wellFormedPostings ∅.
Proof. intros key s Hs. by rewrite lookup_empty in Hs. Qed.

Lemma wellFormedPostings_add (kv : gmap string string) (key id : string) :
  id ≠ "" → hasChar ","%char id = false →
  wellFormedPostings kv →
  wellFormedPostings (<[key := addId (Get kv key) id]> kv).
Proof.
  intros Hne Hid Hwf key' s Hs.
  destruct (decide (key = key')) as [<-|Hk].
  2: { rewrite lookup_insert_ne in Hs by done. by apply Hwf in Hs. }
  rewrite lookup_insert_eq in Hs. injection Hs as <-.
  split; [by apply addId_nonempty|].
  rewrite Split_addId by done.
  destruct (String.eqb (Get kv key) "") eqn:E.
  - split; [apply NoDup_singleton|].
    intros Hin. apply list_elem_of_singleton in Hin. done.
  - apply String.eqb_neq in E. apply Get_nonempty in E.
    destruct (Hwf _ _ E) as (_ & Hnd & Hempty).
    destruct (existsb _ _) eqn:Ex; [done|].
    split.
    + apply NoDup_app. split; [done|]. split; [|apply NoDup_singleton].
      intros x Hx Hx'. apply list_elem_of_singleton in Hx' as ->.
      apply existsb_eqb_elem_of in Hx. congruence.
    + intros Hin. apply elem_of_app in Hin as [Hin|Hin]; [done|].
      apply list_elem_of_singleton in Hin. done.
Qed.

Lemma wellFormedPostings_remove (kv : gmap string string) (key id : string) :
  wellFormedPostings kv →
  Get kv key ≠ "" →
  wellFormedPostings
    (if Nat.eqb (length (removeId (Get kv key) id)) 0 then delete key kv
     else <[key := Join (removeId (Get kv key) id) ","]> kv).
Proof.
  intros Hwf Hget. apply Get_nonempty in Hget.
  destruct (Hwf _ _ Hget) as (_ & Hnd & Hempty).
  destruct (Nat.eqb (length _) 0) eqn:E; intros key' s Hs.
  - apply lookup_delete_Some in Hs as [_ Hs]. by apply Hwf in Hs.
  - destruct (decide (key = key')) as [<-|Hk].
    2: { rewrite lookup_insert_ne in Hs by done. by apply Hwf in Hs. }
    rewrite lookup_insert_eq in Hs. injection Hs as <-.
    assert (removeId (Get kv key) id ≠ []) as Hne.
    { intros Heq. rewrite Heq in E. done. }
    rewrite Split_Join_removeId by done.
    assert ("" ∉ removeId (Get kv key) id) as Hempty'.
    { unfold removeId. intros Hin. by apply list_elem_of_filter in Hin as [_ ?]. }
    split; [|split; [|done]].
    + intros Heq. pose proof (Split_Join_removeId _ _ Hne) as Hsj.
      rewrite Heq in Hsj. simpl in Hsj. apply Hempty'. rewrite <- Hsj. left.
    + unfold removeId. by apply NoDup_filter.
Qed.

Lemma indexDocument_wellFormed (index : gmap string string)
    (collectionName id : string) (document : Document) :
  id ≠ "" → hasChar ","%char id = false →
  wellFormedPostings index →
  wellFormedPostings (indexDocument index collectionName id document).
Proof.
  intros Hne Hid. unfold indexDocument.
  generalize (getPathValues document "") as pv.
  intros pv. revert index. induction pv as [|pathValue pv IH]; intros index Hwf;
    simpl; [done|].
  apply IH. unfold indexPathValue. by apply wellFormedPostings_add.
Qed.

Lemma deletePathValues_wellFormed (collectionName id : string) (pv : list string)
    (index : gmap string string) :
  wellFormedPostings index →
  wellFormedPostings (deletePathValues collectionName id pv index).
Proof.
  revert index. induction pv as [|pathValue pv IH]; intros index Hwf; simpl; [done|].
  destruct (String.eqb (Get index _) "") eqn:E; [done|].
  apply String.eqb_neq in E. apply IH. by apply wellFormedPostings_remove.
Qed.

Lemma addTokens_wellFormed (collectionName id : string) (tokens : list string)
    (index : gmap string string) :
  id ≠ "" → hasChar ","%char id = false →
  wellFormedPostings index →
  wellFormedPostings (foldl (fts.addToken collectionName id) index tokens).
Proof.
  intros Hne Hid. revert index.
  induction tokens as [|token tokens IH]; intros index Hwf; simpl; [done|].
  apply IH. unfold fts.addToken. by apply wellFormedPostings_add.
Qed.

Lemma addTags_wellFormed (collectionName id : string) (fieldValue : Any)
    (tagValues : list string) (index : gmap string string) :
  id ≠ "" → hasChar ","%char id = false →
  wellFormedPostings index →
  wellFormedPostings (fts.addTags collectionName id fieldValue tagValues index).1.
Proof.
  intros Hne Hid. revert index.
  induction tagValues as [|tag rest IH]; intros index Hwf; simpl; [done|].
  destruct (String.eqb tag "textIndex"); [|by apply IH].
  destruct fieldValue; try done. apply IH. by apply addTokens_wellFormed.
Qed.

Lemma addFields_wellFormed (collectionName id : string) (fields : fts.Struct)
    (index : gmap string string) :
  id ≠ "" → hasChar ","%char id = false →
  wellFormedPostings index →
  wellFormedPostings (fts.addFields collectionName id fields index).1.
Proof.
  intros Hne Hid. revert index.
  induction fields as [|field rest IH]; intros index Hwf; simpl; [done|].
  pose proof (addTags_wellFormed collectionName id (fts.Contents field)
                (Split (fts.Tag field) ";"%char) index Hne Hid Hwf) as Ht.
  destruct (fts.addTags _ _ _ _ _) as [index' [[]|e|]]; simpl in *;
    [by apply IH|done..].
Qed.

Lemma removeTokens_wellFormed (collectionName id : string) (tokens : list string)
    (index : gmap string string) :
  wellFormedPostings index →
  wellFormedPostings (foldl (fts.removeToken collectionName id) index tokens).
Proof.
  revert index. induction tokens as [|token tokens IH]; intros index Hwf; simpl;
    [done|].
  apply IH. unfold fts.removeToken.
  destruct (String.eqb (Get index _) "") eqn:E; [done|].
  apply String.eqb_neq in E. by apply wellFormedPostings_remove.
Qed.

Lemma deleteFields_wellFormed (collectionName id : string) (document : Document)
    (index : gmap string string) :
  wellFormedPostings index →
  wellFormedPostings (fts.deleteFields collectionName id document index).1.
Proof.
  revert index. induction document as [|[k v] rest IH]; intros index Hwf; simpl;
    [done|].
  destruct v; simpl; try done; try (by apply IH).
  apply IH. by apply removeTokens_wellFormed.
Qed.

(** The two indexes after an insert, whatever it returns. *)
Lemma InsertOne_index (db : DB) (collectionName : string) (document : fts.Struct)
    (id : string) :
  index (InsertOne db collectionName document id).1 =
  match store db !! getDocumentKey collectionName id with
  | Some _ => index db
  | None =>
      indexDocument (index db) collectionName id
        (mapAssign (jsonObject document) "_id" (Str id))
  end.
Proof.
  unfold InsertOne.
  destruct (store db !! getDocumentKey collectionName id); [done|].
  by destruct (fts.AddToIndex _ _ _ _) as [f [[]|e|]].
Qed.

Lemma InsertOne_textIndex (db : DB) (collectionName : string)
    (document : fts.Struct) (id : string) :
  fts.textIndex (fts (InsertOne db collectionName document id).1) =
  match store db !! getDocumentKey collectionName id with
  | Some _ => fts.textIndex (fts db)
  | None =>
      (fts.addFields collectionName id document (fts.textIndex (fts db))).1
  end.
Proof.
  unfold InsertOne.
  destruct (store db !! getDocumentKey collectionName id); [done|].
  unfold fts.AddToIndex.
  by destruct (fts.addFields _ _ _ _) as [index' [[]|e|]].
Qed.

(** The two indexes after a delete, whatever it returns. *)
Lemma DeleteOneById_index (db : DB) (collectionName id : string) :
  index (DeleteOneById db collectionName id).1 =
  match store db !! getDocumentKey collectionName id with
  | None => index db
  | Some document => deleteDocumentFromIndex (index db) collectionName id document
  end.
Proof.
  unfold DeleteOneById, FindOneById.
  destruct (store db !! getDocumentKey collectionName id); [|done].
  by destruct (fts.DeleteFromIndex _ _ _ _) as [f [[]| |]].
Qed.

Lemma DeleteOneById_textIndex (db : DB) (collectionName id : string) :
  fts.textIndex (fts (DeleteOneById db collectionName id).1) =
  match store db !! getDocumentKey collectionName id with
  | None => fts.textIndex (fts db)
  | Some document =>
      (fts.deleteFields collectionName id (documentAfterPathValues document)
         (fts.textIndex (fts db))).1
  end.
Proof.
  unfold DeleteOneById, FindOneById.
  destruct (store db !! getDocumentKey collectionName id); [|done].
  unfold fts.DeleteFromIndex.
  by destruct (fts.deleteFields _ _ _ _) as [index' [[]| |]].
Qed.

(** X13. In every state that inserts with plain ids and deletes lead to,
    whatever they returned, every value of the secondary index and of the
    text index is a posting list in good form: it is not empty, lists no id
    twice and lists no empty id. *)
Theorem evolved_wellFormedPostings (db : DB) :
  evolved db →
  wellFormedPostings (index db) ∧ wellFormedPostings (fts.textIndex (fts db)).
Proof.
  induction 1 as [|db collectionName document id _ [IHi IHt] Hid
                  |db collectionName id _ [IHi IHt]].
  - split; apply wellFormedPostings_empty.
  - apply plainId_spec in Hid as (Hne & Hcomma & _).
    rewrite InsertOne_index, InsertOne_textIndex.
    destruct (store db !! getDocumentKey collectionName id); [done|].
    split; [by apply indexDocument_wellFormed|by apply addFields_wellFormed].
  - rewrite DeleteOneById_index, DeleteOneById_textIndex.
    destruct (store db !! getDocumentKey collectionName id); [|done].
    split; [by apply deletePathValues_wellFormed|by apply deleteFields_wellFormed].
Qed.

End WellFormed.

(** ** The secondary index lists what is stored *)

Section SecondaryIndex.
Context `{GoRuntime}.

Lemma getIndexKey_inj (collectionName pathValue pathValue' : string) :
  getIndexKey collectionName pathValue = getIndexKey collectionName pathValue' →
  pathValue = pathValue'.
Proof.
  unfold getIndexKey. intros E.
  apply append_inj_r in E. by apply append_inj_r in E.
Qed.

Lemma indexPathValues_mono (collectionName id : string) (pv : list string)
    (index : gmap string string) (key x : string) :
  id ≠ "" → hasChar ","%char id = false →
  x ∈ idsAt index key →
  x ∈ idsAt (foldl (indexPathValue collectionName id) index pv) key.
Proof.
  intros Hne Hid. revert index.
  induction pv as [|pathValue pv IH]; intros index Hx; simpl; [done|].
  apply IH. unfold indexPathValue. by apply idsAt_addId_mono.
Qed.

Lemma indexDocument_mono (index : gmap string string) (collectionName id : string)
    (document : Document) (key x : string) :
  id ≠ "" → hasChar ","%char id = false →
  x ∈ idsAt index key →
  x ∈ idsAt (indexDocument index collectionName id document) key.
Proof. intros. unfold indexDocument. by apply indexPathValues_mono. Qed.

Lemma indexPathValues_lists (collectionName id : string) (pv : list string)
    (index : gmap string string) (pathValue : string) :
  id ≠ "" → hasChar ","%char id = false →
  pathValue ∈ pv →
  id ∈ idsAt (foldl (indexPathValue collectionName id) index pv)
         (getIndexKey collectionName pathValue).
Proof.
  intros Hne Hid. revert index.
  induction pv as [|pathValue' pv IH]; intros index Hin; simpl.
  - by apply elem_of_nil in Hin.
  - apply elem_of_cons in Hin as [->|Hin]; [|by apply IH].
    apply indexPathValues_mono; [done..|].
    unfold indexPathValue. by apply idsAt_addId.
Qed.

(** After any series of inserts with plain ids into collections whose
    names have no colon, every stored document is listed in the secondary
    index under each of its path-value pairs. *)
Lemma insertedOnly_listed (db : DB) (collectionName id : string)
    (stored : Document) (pathValue : string) :
  insertedOnly db →
  hasColon collectionName = false →
  store db !! getDocumentKey collectionName id = Some stored →
  pathValue ∈ getPathValues stored "" →
  id ∈ idsAt (index db) (getIndexKey collectionName pathValue).
Proof.
  intros Hdb Hc. revert id stored pathValue.
  induction Hdb as [|db collectionName0 document0 id0 _ IH Hid0 Hc0];
    intros id stored pathValue Hs Hpv.
  - unfold emptyDB in Hs. simpl in Hs. by rewrite lookup_empty in Hs.
  - rewrite InsertOne_store in Hs. rewrite InsertOne_index.
    destruct (store db !! getDocumentKey collectionName0 id0) eqn:E0;
      [by eapply IH|].
    pose proof Hid0 as Hplain. apply plainId_spec in Hid0 as (Hne & Hcomma & _).
    destruct (decide (getDocumentKey collectionName0 id0
                      = getDocumentKey collectionName id)) as [Hkey|Hkey].
    + rewrite Hkey, lookup_insert_eq in Hs. injection Hs as <-.
      apply getDocumentKey_pair_inj in Hkey as [-> ->]; [|done..].
      unfold indexDocument. by apply indexPathValues_lists.
    + rewrite lookup_insert_ne in Hs by done.
      apply indexDocument_mono; [done..|]. by eapply IH.
Qed.

(** The loop of [deleteDocumentFromIndex] leaves the keys of other
    path-value pairs alone. *)
Lemma deletePathValues_other (collectionName id : string) (pv : list string)
    (index : gmap string string) (key : string) :
  key ∉ map (getIndexKey collectionName) pv →
  deletePathValues collectionName id pv index !! key = index !! key.
Proof.
  revert index. induction pv as [|pathValue pv IH]; intros index Hk; simpl; [done|].
  assert (key ≠ getIndexKey collectionName pathValue) as Hne.
  { intros ->. apply Hk. left. }
  assert (key ∉ map (getIndexKey collectionName) pv) as Hk'.
  { intros Hin. apply Hk. by right. }
  destruct (String.eqb (Get index _) ""); [done|].
  rewrite IH by done.
  destruct (Nat.eqb _ 0);
    [by rewrite lookup_delete_ne|by rewrite lookup_insert_ne].
Qed.

Lemma idsAt_removed (kv : gmap string string) (key id : string) :
  id ∉ idsAt
         (if Nat.eqb (length (removeId (Get kv key) id)) 0 then delete key kv
          else <[key := Join (removeId (Get kv key) id) ","]> kv) key.
Proof.
  destruct (Nat.eqb (length _) 0) eqn:E.
  - unfold idsAt, Get. rewrite lookup_delete_eq. simpl. by intros ?%elem_of_nil.
  - assert (removeId (Get kv key) id ≠ []) as Hne.
    { intros Heq. rewrite Heq in E. done. }
    unfold idsAt, Get at 1 3. rewrite lookup_insert_eq. simpl.
    destruct (String.eqb _ ""); [by intros ?%elem_of_nil|].
    rewrite Split_Join_removeId by done. apply removeId_not_elem_of.
Qed.

Lemma idsAt_ext (kv kv' : gmap string string) (key : string) :
  kv !! key = kv' !! key → idsAt kv key = idsAt kv' key.
Proof. unfold idsAt, Get. by intros ->. Qed.

(** The loop of [deleteDocumentFromIndex] on pairwise different path-value
    pairs that all have a posting list takes the id out of each. *)
Lemma deletePathValues_removes (collectionName id : string) (pvs : list string)
    (index : gmap string string) (pathValue : string) :
  NoDup pvs →
  (∀ pv, pv ∈ pvs → Get index (getIndexKey collectionName pv) ≠ "") →
  pathValue ∈ pvs →
  id ∉ idsAt (deletePathValues collectionName id pvs index)
         (getIndexKey collectionName pathValue).
Proof.
  revert index.
  induction pvs as [|pv pvs IH]; intros index Hnd Hget Hin.
  - by apply elem_of_nil in Hin.
  - apply NoDup_cons in Hnd as [Hnotin Hnd]. simpl.
    assert (Get index (getIndexKey collectionName pv) ≠ "") as Hpv
      by (apply Hget; left).
    apply String.eqb_neq in Hpv. rewrite Hpv.
    set (index1 := if Nat.eqb _ 0 then _ else _).
    assert (∀ key, key ≠ getIndexKey collectionName pv →
                   index1 !! key = index !! key) as Hother.
    { intros key Hk. unfold index1. destruct (Nat.eqb _ 0);
        [by rewrite lookup_delete_ne|by rewrite lookup_insert_ne]. }
    apply elem_of_cons in Hin as [->|Hin].
    + rewrite (idsAt_ext _ index1).
      * apply idsAt_removed.
      * apply deletePathValues_other. intros Hk.
        apply list_elem_of_fmap in Hk as (pv' & Hk & Hpv').
        apply getIndexKey_inj in Hk as ->. done.
    + apply IH; [done| |done].
      intros pv' Hpv'. unfold Get. rewrite Hother.
      * apply Hget. by right.
      * intros Hk. apply getIndexKey_inj in Hk as ->. done.
Qed.

(** X14. When the path-value pairs of a document are pairwise different and
    each has a posting list, [deleteDocumentFromIndex] leaves the id in the
    posting list of none of them. *)
Theorem deleteDocumentFromIndex_removes (index : gmap string string)
    (collectionName id : string) (document : Document) (pathValue : string) :
  NoDup (getPathValues document "") →
  (∀ pv, pv ∈ getPathValues document "" →
         Get index (getIndexKey collectionName pv) ≠ "") →
  pathValue ∈ getPathValues document "" →
  id ∉ idsAt (deleteDocumentFromIndex index collectionName id document)
         (getIndexKey collectionName pathValue).
Proof. unfold deleteDocumentFromIndex. apply deletePathValues_removes. Qed.

End SecondaryIndex.

(** ** Text analysis and the text index *)

Section TextIndex.
Context `{GoRuntime}.

Lemma allChars_app (f : ascii → bool) (s t : string) :
  allChars f (s +:+ t) = allChars f s && allChars f t.
Proof.
  induction s as [|c s IH]; simpl; [done|]. by rewrite IH, andb_assoc.
Qed.

Lemma fieldsFrom_fields (f : ascii → bool) (text field : string) :
  allChars (λ c, negb (f c)) field = true →
  Forall (λ token, token ≠ "" ∧ allChars (λ c, negb (f c)) token = true)
    (fieldsFrom f text field).
Proof.
  revert field. induction text as [|c text IH]; intros field Hfield; simpl.
  - destruct (String.eqb field "") eqn:E; [constructor|].
    apply String.eqb_neq in E. by repeat constructor.
  - destruct (f c) eqn:Ec.
    + destruct (String.eqb field "") eqn:E; [by apply IH|].
      apply String.eqb_neq in E. constructor; [done|by apply IH].
    + apply IH. rewrite allChars_app, Hfield. simpl. by rewrite Ec.
Qed.

(** X15. Every token that [tokenize] cuts out of a text is not empty and
    consists of letters and numbers only. *)
Theorem tokenize_tokens (text : string) :
  Forall (λ token,
            token ≠ "" ∧ allChars (λ r, IsLetter r || IsNumber r) token = true)
    (fts.tokenize text).
Proof.
  unfold fts.tokenize, FieldsFunc.
  pose proof (fieldsFrom_fields (λ r, negb (IsLetter r) && negb (IsNumber r))
                text "" eq_refl) as Hf.
  eapply Forall_impl; [exact Hf|]. intros token [Hne Hall]. split; [done|].
  clear -Hall. induction token as [|c token IH]; simpl in *; [done|].
  apply andb_true_iff in Hall as [Hc Hall]. rewrite IH by done.
  rewrite negb_andb, !negb_involutive in Hc. by rewrite Hc.
Qed.

Lemma postingList_idsAt (f : fts.FTS) (collectionName token : string) :
  postingList f collectionName token =
  idsAt (fts.textIndex f) (fts.getIndexKey collectionName token).
Proof. done. Qed.

Lemma addTokens_mono (collectionName id : string) (tokens : list string)
    (index : gmap string string) (key x : string) :
  id ≠ "" → hasChar ","%char id = false →
  x ∈ idsAt index key →
  x ∈ idsAt (foldl (fts.addToken collectionName id) index tokens) key.
Proof.
  intros Hne Hid. revert index.
  induction tokens as [|token tokens IH]; intros index Hx; simpl; [done|].
  apply IH. unfold fts.addToken. by apply idsAt_addId_mono.
Qed.

Lemma addTokens_lists (collectionName id : string) (tokens : list string)
    (index : gmap string string) (token : string) :
  id ≠ "" → hasChar ","%char id = false →
  token ∈ tokens →
  id ∈ idsAt (foldl (fts.addToken collectionName id) index tokens)
         (fts.getIndexKey collectionName token).
Proof.
  intros Hne Hid. revert index.
  induction tokens as [|token' tokens IH]; intros index Hin; simpl.
  - by apply elem_of_nil in Hin.
  - apply elem_of_cons in Hin as [->|Hin]; [|by apply IH].
    apply addTokens_mono; [done..|]. unfold fts.addToken. by apply idsAt_addId.
Qed.

Lemma addTags_mono (collectionName id : string) (fieldValue : Any)
    (tagValues : list string) (index : gmap string string) (key x : string) :
  id ≠ "" → hasChar ","%char id = false →
  x ∈ idsAt index key →
  x ∈ idsAt (fts.addTags collectionName id fieldValue tagValues index).1 key.
Proof.
  intros Hne Hid. revert index.
  induction tagValues as [|tag rest IH]; intros index Hx; simpl; [done|].
  destruct (String.eqb tag "textIndex"); [|by apply IH].
  destruct fieldValue; try done. apply IH. by apply addTokens_mono.
Qed.

Lemma addTags_lists (collectionName id text : string)
    (tagValues : list string) (index : gmap string string) (token : string) :
  id ≠ "" → hasChar ","%char id = false →
  existsb (λ tag, String.eqb tag "textIndex") tagValues = true →
  token ∈ fts.analyze text →
  id ∈ idsAt (fts.addTags collectionName id (Str text) tagValues index).1
         (fts.getIndexKey collectionName token).
Proof.
  intros Hne Hid. revert index.
  induction tagValues as [|tag rest IH]; intros index Htag Htoken; simpl in *;
    [done|].
  destruct (String.eqb tag "textIndex"); [|by apply IH].
  apply addTags_mono; [done..|]. by apply addTokens_lists.
Qed.

Lemma addFields_mono (collectionName id : string) (fields : fts.Struct)
    (index : gmap string string) (key x : string) :
  id ≠ "" → hasChar ","%char id = false →
  x ∈ idsAt index key →
  x ∈ idsAt (fts.addFields collectionName id fields index).1 key.
Proof.
  intros Hne Hid. revert index.
  induction fields as [|field rest IH]; intros index Hx; simpl; [done|].
  pose proof (addTags_mono collectionName id (fts.Contents field)
                (Split (fts.Tag field) ";"%char) index key x Hne Hid Hx) as Ht.
  destruct (fts.addTags _ _ _ _ _) as [index' [[]|e|]]; simpl in *;
    [by apply IH|done..].
Qed.

Lemma addFields_lists (collectionName id : string) (fields : fts.Struct)
    (index : gmap string string) (field : fts.StructField) (text token : string) :
  id ≠ "" → hasChar ","%char id = false →
  (fts.addFields collectionName id fields index).2 = Ok () →
  field ∈ fields → textIndexed field = true → fts.Contents field = Str text →
  token ∈ fts.analyze text →
  id ∈ idsAt (fts.addFields collectionName id fields index).1
         (fts.getIndexKey collectionName token).
Proof.
  intros Hne Hcomma Hok Hfield Htag Htext Htoken. revert index Hok Hfield.
  induction fields as [|field' rest IH]; intros index Hok Hfield.
  - by apply elem_of_nil in Hfield.
  - simpl in *.
    destruct (fts.addTags collectionName id (fts.Contents field')
                (Split (fts.Tag field') ";"%char) index) as [index1 r1] eqn:E1.
    destruct r1 as [[]|e|]; simpl in *; [|done..].
    apply elem_of_cons in Hfield as [<-|Hfield]; [|by apply IH].
    apply addFields_mono; [done..|].
    assert (index1 = (fts.addTags collectionName id (fts.Contents field)
                        (Split (fts.Tag field) ";"%char) index).1)
      as -> by (by rewrite E1).
    rewrite Htext. by apply addTags_lists.
Qed.

(** X16. When [AddToIndex] returns without a panic for a plain id, the id is
    listed under every token of every string field tagged [textIndex]. *)
Theorem AddToIndex_lists (f f' : fts.FTS) (collectionName id : string)
    (document : fts.Struct) (field : fts.StructField) (text token : string) :
  plainId id = true →
  fts.AddToIndex f collectionName id document = (f', Ok ()) →
  field ∈ document → textIndexed field = true → fts.Contents field = Str text →
  token ∈ fts.analyze text →
  id ∈ postingList f' collectionName token.
Proof.
  intros Hid Hadd Hfield Htag Htext Htoken.
  apply plainId_spec in Hid as (Hne & Hcomma & _).
  rewrite postingList_idsAt. unfold fts.AddToIndex in Hadd.
  destruct (fts.addFields collectionName id document (fts.textIndex f))
    as [index' r] eqn:E. injection Hadd as <- ->. simpl.
  assert (index' = (fts.addFields collectionName id document (fts.textIndex f)).1)
    as -> by (by rewrite E).
  eapply addFields_lists; [done|done|by rewrite E|done|done|done|done].
Qed.

(** The loop of [Search], started with ids that hold [id], keeps [id] as
    long as every posting list that is not empty holds it. *)
Lemma searchTokens_keeps (f : fts.FTS) (collectionName id : string)
    (tokens matchedIds : list string) :
  id ∈ matchedIds →
  (∀ token, token ∈ tokens →
     postingList f collectionName token = []
     ∨ id ∈ postingList f collectionName token) →
  id ∈ foldl (fts.searchToken collectionName (fts.textIndex f)) matchedIds tokens.
Proof.
  revert matchedIds. induction tokens as [|token tokens IH];
    intros matchedIds Hin Hall; simpl; [done|].
  apply IH; [|intros t Ht; apply Hall; by right].
  rewrite searchToken_postingList.
  destruct (Hall token) as [Hnil|Hid]; [left|by rewrite Hnil|].
  destruct (Nat.eqb (length (postingList f collectionName token)) 0); [done|].
  destruct matchedIds as [|m ms]; [by apply elem_of_nil in Hin|]. simpl.
  unfold fts.intersection. by apply list_elem_of_filter.
Qed.

Lemma searchTokens_finds (f : fts.FTS) (collectionName id : string)
    (tokens : list string) :
  (∀ token, token ∈ tokens →
     postingList f collectionName token = []
     ∨ id ∈ postingList f collectionName token) →
  (∃ token, token ∈ tokens ∧ postingList f collectionName token ≠ []) →
  id ∈ foldl (fts.searchToken collectionName (fts.textIndex f)) [] tokens.
Proof.
  induction tokens as [|token tokens IH]; intros Hall (t & Ht & Hne).
  - by apply elem_of_nil in Ht.
  - simpl. rewrite searchToken_postingList.
    destruct (postingList f collectionName token) as [|x l] eqn:E; simpl.
    + apply IH; [intros t' Ht'; apply Hall; by right|].
      apply elem_of_cons in Ht as [->|Ht]; [congruence|by exists t].
    + apply searchTokens_keeps; [|intros t' Ht'; apply Hall; by right].
      destruct (Hall token) as [Hnil|Hid]; [left|congruence|].
      by rewrite E in Hid.
Qed.

(** X17. [Search] misses no id that is in the intersection: an id that is in
    every non-empty posting list of the analyzed tokens, of which there is
    at least one, is among the ids found. *)
Theorem Search_complete (f : fts.FTS) (collectionName text id : string) :
  inEveryPostingList f collectionName text id = true →
  id ∈ fts.Search f collectionName text.
Proof.
  unfold inEveryPostingList, nonEmptyPostingLists, fts.Search.
  intros Hin. apply andb_true_iff in Hin as [Hsome Hall].
  rewrite forallb_forall in Hall.
  apply searchTokens_finds.
  - intros token Htoken.
    destruct (postingList f collectionName token) as [|x l] eqn:E; [by left|right].
    rewrite <- E. apply existsb_eqb_elem_of, Hall.
    apply filter_In. split; [|by rewrite E].
    apply in_map. by apply list_elem_of_In.
  - destruct (List.filter _ _) as [|ids rest] eqn:E; [done|].
    assert (In ids (List.filter
                      (λ ids, negb (Nat.eqb (length ids) 0))
                      (map (postingList f collectionName) (fts.analyze text))))
      as Hids by (rewrite E; by left).
    apply filter_In in Hids as [Hids Hne].
    apply in_map_iff in Hids as (token & <- & Htoken).
    exists token. split; [by apply list_elem_of_In|].
    by destruct (postingList f collectionName token).
Qed.

(** X18. The tokens without a posting list do not change what [Search]
    finds: the result is the fold over the non-empty posting lists alone, in
    which the first list is taken as it is and every further list filters
    the ids found so far, or replaces them when none is left. *)
Theorem Search_nonEmptyPostingLists (f : fts.FTS) (collectionName text : string) :
  fts.Search f collectionName text =
  foldl (λ matchedIds ids,
           if Nat.eqb (length matchedIds) 0 then ids
           else fts.intersection matchedIds ids)
        [] (nonEmptyPostingLists f collectionName text).
Proof.
  unfold fts.Search, nonEmptyPostingLists.
  generalize (@nil string) as matchedIds.
  induction (fts.analyze text) as [|token tokens IH]; intros matchedIds; simpl;
    [done|].
  rewrite searchToken_postingList, IH.
  by destruct (Nat.eqb (length (postingList f collectionName token)) 0).
Qed.

(** X19. [Search] of the database returns [ErrDocumentNotExists] exactly
    when the text index finds an id that has no document, and returns the
    documents otherwise; it never panics. *)
Theorem Search_outcome (db : DB) (collectionName text : string) :
  match Search db collectionName text with
  | Ok documents =>
      Forall (λ id, is_Some (store db !! getDocumentKey collectionName id))
        (fts.Search (fts db) collectionName text)
  | Err e =>
      e = ErrDocumentNotExists
      ∧ Exists (λ id, store db !! getDocumentKey collectionName id = None)
          (fts.Search (fts db) collectionName text)
  | Panic => False
  end.
Proof.
  unfold Search.
  induction (fts.Search (fts db) collectionName text) as [|id ids IH]; simpl;
    [constructor|].
  unfold FindOneById at 1.
  destruct (store db !! getDocumentKey collectionName id) as [document|] eqn:E.
  - destruct (loadDocuments db collectionName ids) as [documents|e|].
    + constructor; [by rewrite E|done].
    + destruct IH as [-> IH]. split; [done|by right].
    + done.
  - split; [done|by left].
Qed.

End TextIndex.

(** ** The secondary index lists only what is stored; deletes *)

Section Minimality.
Context `{GoRuntime}.

Lemma idsAt_addId_inv (kv : gmap string string) (key key' id x : string) :
  hasChar ","%char id = false →
  x ∈ idsAt (<[key := addId (Get kv key) id]> kv) key' →
  x ∈ idsAt kv key' ∨ (x = id ∧ key' = key).
Proof.
  intros Hid Hx. destruct (decide (key = key')) as [<-|Hk].
  2: { left. by rewrite idsAt_insert_ne in Hx. }
  apply idsAt_elem_of_nonempty in Hx as [_ Hx].
  rewrite (Get_Some _ _ _ (lookup_insert_eq _ _ _)) in Hx.
  rewrite Split_addId in Hx by done. unfold idsAt.
  destruct (String.eqb (Get kv key) "").
  - apply list_elem_of_singleton in Hx. by right.
  - destruct (existsb _ _); [by left|].
    apply elem_of_app in Hx as [Hx|Hx]; [by left|].
    apply list_elem_of_singleton in Hx. by right.
Qed.

Lemma indexPathValues_inv (collectionName id : string) (pv : list string)
    (index : gmap string string) (key x : string) :
  hasChar ","%char id = false →
  x ∈ idsAt (foldl (indexPathValue collectionName id) index pv) key →
  x ∈ idsAt index key
  ∨ (x = id ∧ ∃ pathValue, pathValue ∈ pv
                           ∧ key = getIndexKey collectionName pathValue).
Proof.
  intros Hid. revert index.
  induction pv as [|pathValue pv IH]; intros index Hx; simpl in *; [by left|].
  apply IH in Hx as [Hx|(-> & pathValue' & Hin & ->)].
  - unfold indexPathValue in Hx.
    apply (idsAt_addId_inv _ _ _ _ _ Hid) in Hx as [Hx|[-> ->]]; [by left|].
    right. split; [done|]. exists pathValue. split; [left|done].
  - right. split; [done|]. exists pathValue'. split; [by right|done].
Qed.

(** After any series of inserts with plain ids into collections whose
    names have no colon, an id that a posting list of the secondary index
    holds is the id of a stored document, and the key of the list is the key
    of one of the path-value pairs of that document. *)
Lemma insertedOnly_listed_inv (db : DB) (key id : string) :
  insertedOnly db →
  id ∈ idsAt (index db) key →
  ∃ collectionName stored pathValue,
    hasColon collectionName = false
    ∧ FindOneById db collectionName id = Ok stored
    ∧ pathValue ∈ getPathValues stored ""
    ∧ key = getIndexKey collectionName pathValue.
Proof.
  intros Hdb. revert key id.
  induction Hdb as [|db collectionName0 document0 id0 _ IH Hid0 Hc0];
    intros key id Hin.
  - by apply elem_of_nil in Hin.
  - assert (∀ collectionName stored,
              FindOneById db collectionName id = Ok stored →
              FindOneById (InsertOne db collectionName0 document0 id0).1
                collectionName id = Ok stored) as Hkeep.
    { intros c stored Hf. unfold FindOneById in *.
      destruct (store db !! getDocumentKey c id) as [d|] eqn:E; [|done].
      by rewrite (InsertOne_preserves _ _ _ _ _ _ E). }
    rewrite InsertOne_index in Hin.
    destruct (store db !! getDocumentKey collectionName0 id0) eqn:E0.
    + destruct (IH _ _ Hin) as (c & stored & pv & Hc & Hf & Hpv & Hkey).
      exists c, stored, pv. eauto.
    + apply plainId_spec in Hid0 as (Hne & Hcomma & _).
      unfold indexDocument in Hin.
      apply (indexPathValues_inv _ _ _ _ _ _ Hcomma) in Hin
        as [Hin|(-> & pv & Hpv & ->)].
      * destruct (IH _ _ Hin) as (c & stored & pv & Hc & Hf & Hpv & Hkey).
        exists c, stored, pv. eauto.
      * exists collectionName0, (mapAssign (jsonObject document0) "_id" (Str id0)), pv.
        split; [done|]. split; [|done].
        unfold FindOneById. by rewrite InsertOne_store, E0, lookup_insert_eq.
Qed.

(** X20. After any series of inserts with plain ids into collections whose
    names have no colon, the secondary index is exact: an id is listed under
    the key of a path-value pair exactly when [FindOneById] finds a document
    under the id that has this path-value pair. *)
Theorem insertedOnly_index_exact (db : DB) (collectionName id pathValue : string) :
  insertedOnly db →
  hasColon collectionName = false →
  id ∈ idsAt (index db) (getIndexKey collectionName pathValue) ↔
  ∃ stored, FindOneById db collectionName id = Ok stored
            ∧ pathValue ∈ getPathValues stored "".
Proof.
  intros Hdb Hc. split.
  - intros Hin.
    destruct (insertedOnly_listed_inv _ _ _ Hdb Hin)
      as (c' & stored & pv' & Hc' & Hf & Hpv' & Hkey).
    change (getIndexKey collectionName pathValue) with
      (getDocumentKey collectionName pathValue) in Hkey.
    change (getIndexKey c' pv') with (getDocumentKey c' pv') in Hkey.
    apply getDocumentKey_pair_inj in Hkey as [<- <-]; [|done..].
    by exists stored.
  - intros (stored & Hf & Hpv). unfold FindOneById in Hf.
    destruct (store db !! getDocumentKey collectionName id) as [d|] eqn:E; [|done].
    injection Hf as ->. by eapply insertedOnly_listed.
Qed.

Lemma idsAt_remove_subseteq (kv : gmap string string) (key key' id x : string) :
  Get kv key ≠ "" →
  x ∈ idsAt
        (if Nat.eqb (length (removeId (Get kv key) id)) 0 then delete key kv
         else <[key := Join (removeId (Get kv key) id) ","]> kv) key' →
  x ∈ idsAt kv key'.
Proof.
  intros Hget Hx. destruct (decide (key = key')) as [<-|Hk].
  2: { destruct (Nat.eqb _ 0);
         [by rewrite idsAt_delete_ne in Hx|by rewrite idsAt_insert_ne in Hx]. }
  destruct (Nat.eqb (length _) 0) eqn:E.
  - unfold idsAt, Get in Hx. rewrite lookup_delete_eq in Hx. simpl in Hx.
    by apply elem_of_nil in Hx.
  - assert (removeId (Get kv key) id ≠ []) as Hne.
    { intros Heq. rewrite Heq in E. done. }
    apply idsAt_elem_of_nonempty in Hx as [_ Hx].
    rewrite (Get_Some _ _ _ (lookup_insert_eq _ _ _)) in Hx.
    rewrite Split_Join_removeId in Hx by done.
    unfold removeId in Hx. apply list_elem_of_filter in Hx as [_ Hx].
    unfold idsAt. apply String.eqb_neq in Hget. by rewrite Hget.
Qed.

Lemma deletePathValues_subseteq (collectionName id : string) (pv : list string)
    (index : gmap string string) (key x : string) :
  x ∈ idsAt (deletePathValues collectionName id pv index) key →
  x ∈ idsAt index key.
Proof.
  revert index. induction pv as [|pathValue pv IH]; intros index Hx; simpl in *;
    [done|].
  destruct (String.eqb (Get index _) "") eqn:E; [done|].
  apply String.eqb_neq in E. apply IH in Hx.
  by apply idsAt_remove_subseteq in Hx.
Qed.

(** X21. Delete after inserts alone: when the path-value pairs of the stored
    document are pairwise different, [DeleteOneById] leaves the id in no
    posting list of the secondary index under the collection. *)
Theorem DeleteOneById_index_clean (db : DB) (collectionName id : string)
    (stored : Document) (pathValue : string) :
  insertedOnly db →
  hasColon collectionName = false →
  store db !! getDocumentKey collectionName id = Some stored →
  NoDup (getPathValues stored "") →
  id ∉ idsAt (index (DeleteOneById db collectionName id).1)
         (getIndexKey collectionName pathValue).
Proof.
  intros Hdb Hc Hs Hnd Hin.
  rewrite DeleteOneById_index, Hs in Hin.
  pose proof Hin as Hold. apply deletePathValues_subseteq in Hold.
  destruct (insertedOnly_listed_inv _ _ _ Hdb Hold)
    as (c' & stored' & pv' & Hc' & Hf & Hpv' & Hkey).
  change (getIndexKey collectionName pathValue) with
    (getDocumentKey collectionName pathValue) in Hkey.
  change (getIndexKey c' pv') with (getDocumentKey c' pv') in Hkey.
  apply getDocumentKey_pair_inj in Hkey as [<- <-]; [|done..].
  unfold FindOneById in Hf. rewrite Hs in Hf. injection Hf as <-.
  revert Hin. apply deletePathValues_removes; [done| |done].
  intros pv Hpv.
  pose proof (insertedOnly_listed _ _ _ _ _ Hdb Hc Hs Hpv) as Hlisted.
  by apply idsAt_elem_of_nonempty in Hlisted as [? _].
Qed.

Lemma removeToken_subseteq (collectionName id token : string)
    (index : gmap string string) (key x : string) :
  x ∈ idsAt (fts.removeToken collectionName id index token) key →
  x ∈ idsAt index key.
Proof.
  unfold fts.removeToken.
  destruct (String.eqb (Get index _) "") eqn:E; [done|].
  apply String.eqb_neq in E. by apply idsAt_remove_subseteq.
Qed.

Lemma removeTokens_subseteq (collectionName id : string) (tokens : list string)
    (index : gmap string string) (key x : string) :
  x ∈ idsAt (foldl (fts.removeToken collectionName id) index tokens) key →
  x ∈ idsAt index key.
Proof.
  revert index. induction tokens as [|token tokens IH]; intros index Hx; simpl in *;
    [done|].
  apply IH in Hx. by apply removeToken_subseteq in Hx.
Qed.

Lemma removeTokens_removes (collectionName id : string) (tokens : list string)
    (index : gmap string string) (token : string) :
  token ∈ tokens →
  id ∉ idsAt (foldl (fts.removeToken collectionName id) index tokens)
         (fts.getIndexKey collectionName token).
Proof.
  revert index. induction tokens as [|token' tokens IH]; intros index Hin; simpl.
  - by apply elem_of_nil in Hin.
  - destruct (decide (token ∈ tokens)) as [Hlater|Hnot]; [by apply IH|].
    apply elem_of_cons in Hin as [->|Hin]; [|done].
    intros Hx. apply removeTokens_subseteq in Hx. revert Hx.
    unfold fts.removeToken.
    destruct (String.eqb (Get index _) "") eqn:E.
    + unfold idsAt. rewrite E. by intros ?%elem_of_nil.
    + apply idsAt_removed.
Qed.

Lemma deleteFields_subseteq (collectionName id : string) (document : Document)
    (index : gmap string string) (key x : string) :
  x ∈ idsAt (fts.deleteFields collectionName id document index).1 key →
  x ∈ idsAt index key.
Proof.
  revert index. induction document as [|[k v] rest IH]; intros index Hx;
    simpl in *; [done|].
  destruct v; simpl in *; try done; try (by apply IH).
  apply IH in Hx. by apply removeTokens_subseteq in Hx.
Qed.

(** X22. When [DeleteFromIndex] returns without a panic, the id is left in
    the posting list of no token of any string field of the document, tagged
    or not. *)
Theorem DeleteFromIndex_removes (f f' : fts.FTS) (collectionName id : string)
    (document : Document) (name text token : string) :
  fts.DeleteFromIndex f collectionName id document = (f', Ok ()) →
  (name, Str text) ∈ document →
  token ∈ fts.analyze text →
  id ∉ postingList f' collectionName token.
Proof.
  intros Hdel Hfield Htoken. rewrite postingList_idsAt.
  unfold fts.DeleteFromIndex in Hdel.
  destruct (fts.deleteFields collectionName id document (fts.textIndex f))
    as [index' r] eqn:E. injection Hdel as <- ->. simpl.
  assert (index' = (fts.deleteFields collectionName id document
                      (fts.textIndex f)).1) as -> by (by rewrite E).
  assert ((fts.deleteFields collectionName id document (fts.textIndex f)).2
          = Ok ()) as Hok by (by rewrite E).
  clear E. revert Hok. generalize (fts.textIndex f) as index.
  induction document as [|[k v] rest IH]; intros index Hok.
  - by apply elem_of_nil in Hfield.
  - apply elem_of_cons in Hfield as [[= <- <-]|Hfield].
    + simpl. intros Hx. apply deleteFields_subseteq in Hx. revert Hx.
      by apply removeTokens_removes.
    + simpl in *. destruct v; simpl in *; try done; by apply IH.
Qed.

End Minimality.

(** ** The counting of candidates *)

Section Counting.
Context `{GoRuntime}.

Lemma occurrences_cons (id x : string) (ids : list string) :
  occurrences id (x :: ids) =
  (if decide (x = id) then 1 else 0) + occurrences id ids.
Proof.
  unfold occurrences. rewrite filter_cons. by destruct (decide (x = id)).
Qed.

Lemma occurrences_pos (id : string) (ids : list string) :
  0 < occurrences id ids ↔ id ∈ ids.
Proof.
  induction ids as [|x ids IH]; [by split; [inversion 1|intros ?%elem_of_nil]|].
  rewrite occurrences_cons, elem_of_cons.
  destruct (decide (x = id)) as [->|Hne]; simpl.
  - split; [by left|lia].
  - rewrite IH. split; [by right|]. by intros [->|?].
Qed.

Lemma occurrences_NoDup (id : string) (ids : list string) :
  NoDup ids → (occurrences id ids ≤ 1)%nat.
Proof.
  induction 1 as [|x ids Hnotin _ IH]; [cbv; lia|].
  rewrite occurrences_cons.
  destruct (decide (x = id)) as [->|Hne]; simpl; [|done].
  assert (¬ (0 < occurrences id ids)%nat) by (by rewrite occurrences_pos). lia.
Qed.

Lemma countIds_lookup (ids : list string) (counts : gmap string nat) (id : string) :
  default 0 (countIds ids counts !! id) =
  default 0 (counts !! id) + occurrences id ids.
Proof.
  unfold countIds. revert counts.
  induction ids as [|x ids IH]; intros counts; simpl; [by rewrite Nat.add_0_r|].
  rewrite IH, occurrences_cons.
  destruct (decide (x = id)) as [->|Hne].
  - rewrite lookup_insert_eq. simpl. lia.
  - by rewrite lookup_insert_ne.
Qed.

Lemma countIds_positive (ids : list string) (counts : gmap string nat) :
  positiveCounts counts → positiveCounts (countIds ids counts).
Proof.
  unfold countIds. revert counts.
  induction ids as [|x ids IH]; intros counts Hp; simpl; [done|].
  apply IH. intros id n Hn.
  destruct (decide (x = id)) as [->|Hne].
  - rewrite lookup_insert_eq in Hn. injection Hn as <-. lia.
  - rewrite lookup_insert_ne in Hn by done. by eapply Hp.
Qed.

Lemma counted_nil (st : gmap string nat * nat) : counted st st [].
Proof. split; [simpl; lia|]. split; [intros; simpl; lia|done]. Qed.

Lemma counted_app (st1 st2 st3 : gmap string nat * nat)
    (terms terms' : list (list string)) :
  counted st1 st2 terms → counted st2 st3 terms' →
  counted st1 st3 (terms ++ terms').
Proof.
  intros (Hn & Hc & Hp) (Hn' & Hc' & Hp'). split; [|split].
  - rewrite Hn', Hn, length_app. lia.
  - intros id. rewrite Hc', Hc, sum_list_with_app. lia.
  - auto.
Qed.

Lemma counted_one (counts : gmap string nat) (n : nat) (ids : list string) :
  counted (counts, n) (countIds ids counts, S n) [ids].
Proof.
  split; [simpl; lia|]. split.
  - intros id. simpl. rewrite countIds_lookup. lia.
  - apply countIds_positive.
Qed.

Lemma countGroup_counted (index : gmap string string) (collectionName : string)
    (st : gmap string nat * nat) (topOperand : Group) :
  counted st (countGroup index collectionName st topOperand)
    (groupTerms index collectionName topOperand).
Proof.
  destruct st as [counts n]. unfold countGroup, groupTerms.
  destruct (String.eqb (GroupOperator topOperand) "OR"); [apply counted_one|].
  generalize (Operands topOperand) as operands. intros operands.
  revert counts n. induction operands as [|operand operands IH]; intros counts n.
  - apply counted_nil.
  - cbn [foldl List.filter].
    destruct (String.eqb (Operator operand) EQ).
    + cbn [map fst snd].
      apply (counted_app _ _ _ [_] _ (counted_one counts n _)), IH.
    + apply IH.
Qed.

Lemma countQuery_counted (index : gmap string string) (collectionName : string)
    (query : Query) :
  counted (∅, 0) (countQuery index collectionName query)
    (queryTerms index collectionName query).
Proof.
  unfold countQuery, queryTerms. generalize (∅ : gmap string nat, 0) as st.
  induction query as [|topOperand query IH]; intros st; [apply counted_nil|].
  cbn [foldl flat_map].
  eapply counted_app; [apply countGroup_counted|apply IH].
Qed.

Lemma candidates_elem_of (index : gmap string string) (collectionName : string)
    (query : Query) (id : string) :
  id ∈ candidates index collectionName query ↔
  (countQuery index collectionName query).1 !! id
  = Some (countQuery index collectionName query).2.
Proof.
  unfold candidates.
  destruct (countQuery index collectionName query) as [counts required]. simpl.
  rewrite list_elem_of_In, in_map_iff. split.
  - intros ([id' n] & <- & Hin). apply filter_In in Hin as [Hin Hn].
    apply Nat.eqb_eq in Hn. simpl in *. subst n.
    by apply list_elem_of_In, elem_of_map_to_list in Hin.
  - intros Hid. exists (id, required). split; [done|].
    apply filter_In. split.
    + by apply list_elem_of_In, elem_of_map_to_list.
    + apply Nat.eqb_refl.
Qed.

Lemma sum_occurrences_all (id : string) (terms : list (list string)) :
  Forall (λ ids, (occurrences id ids ≤ 1)%nat) terms →
  sum_list_with (occurrences id) terms = length terms ↔
  Forall (λ ids, id ∈ ids) terms.
Proof.
  induction 1 as [|ids terms Hle Hrest IH]; simpl; [by split|].
  assert (sum_list_with (occurrences id) terms ≤ length terms)%nat as Hsum.
  { clear IH. induction Hrest as [|? ? ? ? IH']; simpl; [done|]. lia. }
  rewrite Forall_cons, <- IH, <- occurrences_pos. lia.
Qed.

(** The candidates in terms of the lists that were counted. *)
Lemma candidates_queryTerms (index : gmap string string) (collectionName : string)
    (query : Query) (id : string) :
  queryTerms index collectionName query ≠ [] →
  Forall NoDup (queryTerms index collectionName query) →
  id ∈ candidates index collectionName query ↔
  Forall (λ ids, id ∈ ids) (queryTerms index collectionName query).
Proof.
  intros Hne Hnd. rewrite candidates_elem_of.
  destruct (countQuery_counted index collectionName query) as (Hn & Hc & Hp).
  simpl in *. specialize (Hc id). rewrite lookup_empty in Hc. simpl in Hc.
  rewrite <- sum_occurrences_all.
  2: { eapply Forall_impl; [exact Hnd|]. intros. by apply occurrences_NoDup. }
  rewrite <- Hc, Hn.
  destruct ((countQuery index collectionName query).1 !! id) as [n|] eqn:E; simpl.
  - split; [by intros [= ->]|by intros ->].
  - split; [done|]. intros Hz.
    destruct (queryTerms index collectionName query); [done|]. simpl in Hz. lia.
Qed.

Lemma idsOfOrGroup_elem_of (index : gmap string string) (collectionName : string)
    (topOperand : Group) (id : string) :
  id ∈ idsOfOrGroup index collectionName topOperand ↔
  ∃ operand, operand ∈ Operands topOperand
             ∧ id ∈ idsOfOperand index collectionName operand.
Proof.
  unfold idsOfOrGroup.
  assert (∀ operands (matched : gset string),
            id ∈ foldl (λ matched operand,
                          matched ∪ list_to_set
                            (idsOfOperand index collectionName operand))
                   matched operands ↔
            id ∈ matched
            ∨ ∃ operand, operand ∈ operands
                         ∧ id ∈ idsOfOperand index collectionName operand) as Hf.
  { induction operands as [|operand operands IH]; intros matched; simpl.
    - split; [by left|]. intros [?|(? & ?%elem_of_nil & _)]; done.
    - rewrite IH, elem_of_union, elem_of_list_to_set. split.
      + intros [[?|?]|(o & Ho & Hid)]; [by left| |].
        * right. exists operand. split; [left|done].
        * right. exists o. split; [by right|done].
      + intros [?|(o & Ho & Hid)]; [by left; left|].
        apply elem_of_cons in Ho as [->|Ho]; [by left; right|].
        right. by exists o. }
  rewrite Hf. split; [|by right]. intros [?%elem_of_empty|?]; done.
Qed.

Lemma idsOfOperand_NoDup (index : gmap string string) (collectionName : string)
    (operand : Condition) :
  wellFormedPostings index → NoDup (idsOfOperand index collectionName operand).
Proof.
  intros Hwf. unfold idsOfOperand.
  destruct (decide (Get index (getIndexKey collectionName
              (buildPathValue (Path operand) (Str (Sprint (Value operand))))) = ""))
    as [->|Hne]; [apply NoDup_singleton|].
  apply Get_nonempty in Hne. by apply Hwf in Hne as (_ & ? & _).
Qed.

Lemma queryTerms_NoDup (index : gmap string string) (collectionName : string)
    (query : Query) :
  wellFormedPostings index →
  Forall NoDup (queryTerms index collectionName query).
Proof.
  intros Hwf. unfold queryTerms. apply Forall_forall. intros ids Hin.
  apply list_elem_of_In, in_flat_map in Hin as (g & _ & Hin).
  unfold groupTerms in Hin.
  destruct (String.eqb (GroupOperator g) "OR").
  - destruct Hin as [<-|[]]. apply NoDup_elements.
  - apply in_map_iff in Hin as (operand & <- & _). by apply idsOfOperand_NoDup.
Qed.

Lemma queryTerms_nonempty (index : gmap string string) (collectionName : string)
    (query : Query) :
  indexEligible query = true → queryTerms index collectionName query ≠ [].
Proof.
  unfold indexEligible. destruct query as [|g query]; [done|]. simpl.
  intros Hq. apply andb_true_iff in Hq as [Hg _].
  unfold queryTerms, groupTerms, groupRule in *. simpl.
  destruct (String.eqb (GroupOperator g) "OR"); [done|].
  induction (Operands g) as [|operand operands IH]; simpl in *; [done|].
  destruct (String.eqb (Operator operand) EQ); simpl; [done|by apply IH].
Qed.

(** X23. For an index-eligible query on an index whose posting lists are in
    good form, an id is a candidate exactly when, for every group, it is in
    the ids read for at least one condition of an OR group, and in the ids
    read for every condition with [=] of any other group. *)
Theorem candidates_spec (index : gmap string string) (collectionName : string)
    (query : Query) (id : string) :
  wellFormedPostings index →
  indexEligible query = true →
  id ∈ candidates index collectionName query ↔
  ∀ topOperand, topOperand ∈ query →
    if String.eqb (GroupOperator topOperand) "OR"
    then ∃ operand, operand ∈ Operands topOperand
                    ∧ id ∈ idsOfOperand index collectionName operand
    else ∀ operand, operand ∈ Operands topOperand →
                    Operator operand = EQ →
                    id ∈ idsOfOperand index collectionName operand.
Proof.
  intros Hwf Hq.
  rewrite candidates_queryTerms;
    [|by apply queryTerms_nonempty|by apply queryTerms_NoDup].
  unfold queryTerms. rewrite Forall_forall. split.
  - intros Hall g Hg. unfold groupTerms in Hall.
    destruct (String.eqb (GroupOperator g) "OR") eqn:E.
    + apply idsOfOrGroup_elem_of, elem_of_elements, Hall.
      apply list_elem_of_In, in_flat_map. exists g.
      split; [by apply list_elem_of_In|]. rewrite E. by left.
    + intros operand Ho Heq. apply Hall.
      apply list_elem_of_In, in_flat_map. exists g.
      split; [by apply list_elem_of_In|]. rewrite E.
      apply in_map, filter_In. split; [by apply list_elem_of_In|].
      by apply String.eqb_eq.
  - intros Hall ids Hin.
    apply list_elem_of_In, in_flat_map in Hin as (g & Hg & Hin).
    apply list_elem_of_In in Hg. specialize (Hall g Hg).
    unfold groupTerms in Hin.
    destruct (String.eqb (GroupOperator g) "OR").
    + destruct Hin as [<-|[]]. by apply elem_of_elements, idsOfOrGroup_elem_of.
    + apply in_map_iff in Hin as (operand & <- & Hin).
      apply filter_In in Hin as [Hin Heq].
      apply Hall; [by apply list_elem_of_In|by apply String.eqb_eq].
Qed.

End Counting.

(** ** Finding what was inserted *)

Section InsertThenFind.
Context `{GoRuntime}.

Lemma InsertOne_Ok_inv (db db' : DB) (collectionName : string)
    (document : fts.Struct) (id : string) :
  InsertOne db collectionName document id = (db', Ok id) →
  store db !! getDocumentKey collectionName id = None
  ∧ (fts.addFields collectionName id document (fts.textIndex (fts db))).2 = Ok ()
  ∧ db' = (InsertOne db collectionName document id).1.
Proof.
  intros Hins. split; [|split]; [| |by rewrite Hins].
  - unfold InsertOne in Hins.
    by destruct (store db !! getDocumentKey collectionName id).
  - unfold InsertOne, fts.AddToIndex in Hins.
    destruct (store db !! getDocumentKey collectionName id); [done|].
    by destruct (fts.addFields _ _ _ _) as [index' [[]|e|]].
Qed.

Lemma mapHas_mapIndex (m : Document) (key : string) :
  mapHas m key = true → (key, mapIndex m key) ∈ m.
Proof.
  induction m as [|[k v] rest IH]; simpl; [done|].
  destruct (String.eqb k key) eqn:E.
  - apply String.eqb_eq in E as ->. intros _. left.
  - intros Hin. right. by apply IH.
Qed.

Lemma getPathValues_scalar (document : Document) (key : string) (value : Any) :
  (key, value) ∈ document → key ≠ "_id" → isScalar value = true →
  buildPathValue key value ∈ getPathValues document "".
Proof.
  intros Hin Hkey Hv. unfold getPathValues.
  induction document as [|[k v] rest IH]; [by apply elem_of_nil in Hin|].
  simpl in *. apply elem_of_cons in Hin as [[= <- <-]|Hin].
  - apply String.eqb_neq in Hkey. rewrite Hkey.
    destruct value; try done; left.
  - specialize (IH Hin). destruct (String.eqb k "_id"); [done|].
    destruct v; try (by right); [done|].
    apply elem_of_app. by right.
Qed.

Lemma loadDocuments_Ok (db : DB) (collectionName : string)
    (documentIds : list string) (documents : list Document)
    (id : string) (document : Document) :
  loadDocuments db collectionName documentIds = Ok documents →
  id ∈ documentIds →
  store db !! getDocumentKey collectionName id = Some document →
  document ∈ documents.
Proof.
  revert documents.
  induction documentIds as [|id' rest IH]; intros documents Hload Hin Hdoc.
  - by apply elem_of_nil in Hin.
  - simpl in Hload. unfold FindOneById in Hload.
    destruct (store db !! getDocumentKey collectionName id') as [document'|] eqn:E;
      [|done].
    destruct (loadDocuments db collectionName rest) as [documents'|e|]; [|done..].
    injection Hload as <-.
    apply elem_of_cons in Hin as [->|Hin].
    + rewrite E in Hdoc. injection Hdoc as ->. left.
    + right. by eapply IH.
Qed.

(** X24. After an insert that returned its id into a database whose
    secondary index is in good form, a query with one condition [key =
    value] on a top-level field of the stored document that is neither a map
    nor a slice, with a value that prints like the field, finds the stored
    document. *)
Theorem FindMany_after_InsertOne (db db' : DB) (collectionName : string)
    (document : fts.Struct) (id key : string) (value : Any) :
  let documentMap := mapAssign (jsonObject document) "_id" (Str id) in
  wellFormedPostings (index db) → plainId id = true →
  InsertOne db collectionName document id = (db', Ok id) →
  key ≠ "_id" → hasChar "."%char key = false →
  mapHas documentMap key = true →
  isScalar (mapIndex documentMap key) = true →
  Sprint value = Sprint (mapIndex documentMap key) →
  documentMap ∈
    FindMany db' collectionName
      [{| GroupOperator := "AND";
          Operands := [{| Path := key; Operator := EQ; Value := value |}] |}]
      {| Limit := 0 |}.
Proof.
  intros documentMap Hwf Hid Hins Hkey Hdot Hhas Hscalar Hprint.
  pose proof (plainId_spec _ Hid) as (Hne & Hcomma & _).
  apply InsertOne_Ok_inv in Hins as (Hnone & _ & ->).
  set (condition := {| Path := key; Operator := EQ; Value := value |}).
  set (query := [{| GroupOperator := "AND"; Operands := [condition] |}]).
  assert (indexEligible query = true) as Hq by done.
  unfold FindMany. rewrite fallbackToFullScan_indexEligible, Hq. simpl negb.
  unfold indexEvaluation. rewrite collect_unbounded by done. simpl app.
  apply list_elem_of_In, filter_In. split.
  - apply in_map_iff. exists id. split.
    + unfold candidateDocument, FindOneById.
      by rewrite InsertOne_store, Hnone, lookup_insert_eq.
    + apply list_elem_of_In, candidates_queryTerms;
        [by apply queryTerms_nonempty| |].
      * apply queryTerms_NoDup. rewrite InsertOne_index, Hnone.
        by apply indexDocument_wellFormed.
      * unfold queryTerms, groupTerms, query. simpl. constructor; [|constructor].
        unfold idsOfOperand, condition. simpl Path. simpl Value.
        rewrite InsertOne_index, Hnone.
        assert (buildPathValue key (Str (Sprint value))
                = buildPathValue key (mapIndex documentMap key)) as ->
          by (unfold buildPathValue; simpl; by rewrite Hprint).
        apply idsAt_elem_of_nonempty, indexPathValues_lists; [done..|].
        apply getPathValues_scalar; [by apply mapHas_mapIndex|done..].
  - unfold matchQuery, query. simpl. rewrite andb_true_r.
    unfold matchCondition, getValueFromPath. simpl Path.
    rewrite (Split_without_sep _ _ Hdot). simpl.
    by rewrite Hprint, String.eqb_refl.
Qed.

(** X25. After an insert that returned its id, the text index finds the id
    for the text of any of its string fields tagged [textIndex], as long as
    the text has a token; and when [Search] for that text returns documents,
    the stored document is one of them. *)
Theorem Search_after_InsertOne (db db' : DB) (collectionName : string)
    (document : fts.Struct) (id : string) (field : fts.StructField)
    (text : string) :
  plainId id = true →
  InsertOne db collectionName document id = (db', Ok id) →
  field ∈ document → textIndexed field = true → fts.Contents field = Str text →
  fts.analyze text ≠ [] →
  id ∈ fts.Search (fts db') collectionName text
  ∧ ∀ documents, Search db' collectionName text = Ok documents →
      mapAssign (jsonObject document) "_id" (Str id) ∈ documents.
Proof.
  intros Hid Hins Hfield Htag Htext Htokens.
  pose proof (plainId_spec _ Hid) as (Hne & Hcomma & _).
  apply InsertOne_Ok_inv in Hins as (Hnone & Hok & ->).
  assert (∀ token, token ∈ fts.analyze text →
            id ∈ postingList (fts (InsertOne db collectionName document id).1)
                   collectionName token) as Hlists.
  { intros token Htoken. rewrite postingList_idsAt, InsertOne_textIndex, Hnone.
    by eapply addFields_lists. }
  assert (id ∈ fts.Search (fts (InsertOne db collectionName document id).1)
                 collectionName text) as Hfound.
  { apply searchTokens_finds; [intros token Htoken; right; by apply Hlists|].
    destruct (fts.analyze text) as [|token tokens] eqn:E; [done|].
    exists token. split; [left|]. intros Hnil.
    specialize (Hlists token ltac:(left)). rewrite Hnil in Hlists.
    by apply elem_of_nil in Hlists. }
  split; [done|]. intros documents Hload.
  eapply loadDocuments_Ok; [exact Hload|exact Hfound|].
  by rewrite InsertOne_store, Hnone, lookup_insert_eq.
Qed.

End InsertThenFind.

(** ** What an insert and a delete leave of the posting lists of other ids *)

Section PostingFrames.
Context `{GoRuntime}.

Lemma addTokens_inv (collectionName id : string) (tokens : list string)
    (index : gmap string string) (key x : string) :
  hasChar ","%char id = false →
  x ∈ idsAt (foldl (fts.addToken collectionName id) index tokens) key →
  x ∈ idsAt index key ∨ x = id.
Proof.
  intros Hid. revert index.
  induction tokens as [|token tokens IH]; intros index Hx; simpl in *; [by left|].
  apply IH in Hx as [Hx| ->]; [|by right]. unfold fts.addToken in Hx.
  apply (idsAt_addId_inv _ _ _ _ _ Hid) in Hx as [Hx|[-> _]]; [by left|by right].
Qed.

Lemma addTags_inv (collectionName id : string) (fieldValue : Any)
    (tagValues : list string) (index : gmap string string) (key x : string) :
  hasChar ","%char id = false →
  x ∈ idsAt (fts.addTags collectionName id fieldValue tagValues index).1 key →
  x ∈ idsAt index key ∨ x = id.
Proof.
  intros Hid. revert index.
  induction tagValues as [|tag rest IH]; intros index Hx; simpl in *; [by left|].
  destruct (String.eqb tag "textIndex"); [|by apply IH].
  destruct fieldValue; try (by left).
  apply IH in Hx as [Hx| ->]; [|by right]. by apply addTokens_inv in Hx.
Qed.

Lemma addFields_inv (collectionName id : string) (fields : fts.Struct)
    (index : gmap string string) (key x : string) :
  hasChar ","%char id = false →
  x ∈ idsAt (fts.addFields collectionName id fields index).1 key →
  x ∈ idsAt index key ∨ x = id.
Proof.
  intros Hid. revert index.
  induction fields as [|field rest IH]; intros index Hx; simpl in *; [by left|].
  pose proof (addTags_inv collectionName id (fts.Contents field)
                (Split (fts.Tag field) ";"%char) index key x Hid) as Ht.
  destruct (fts.addTags _ _ _ _ _) as [index' [[]|e|]]; simpl in *;
    [|by apply Ht..].
  apply IH in Hx as [Hx| ->]; [by apply Ht|by right].
Qed.

(** X26. An insert with a plain id changes the posting lists of no other id:
    in the secondary index and in the text index, another id is listed under
    a key after the insert exactly when it was listed there before. *)
Theorem InsertOne_postings_frame (db : DB) (collectionName : string)
    (document : fts.Struct) (id indexKey textKey x : string) :
  plainId id = true → x ≠ id →
  (x ∈ idsAt (index (InsertOne db collectionName document id).1) indexKey
   ↔ x ∈ idsAt (index db) indexKey)
  ∧ (x ∈ idsAt (fts.textIndex (fts (InsertOne db collectionName document id).1))
           textKey
     ↔ x ∈ idsAt (fts.textIndex (fts db)) textKey).
Proof.
  intros Hid Hx. apply plainId_spec in Hid as (Hne & Hcomma & _).
  rewrite InsertOne_index, InsertOne_textIndex.
  destruct (store db !! getDocumentKey collectionName id); [done|]. split; split.
  - intros Hin. unfold indexDocument in Hin.
    by apply (indexPathValues_inv _ _ _ _ _ _ Hcomma) in Hin as [Hin|[-> _]].
  - by apply indexDocument_mono.
  - intros Hin. by apply (addFields_inv _ _ _ _ _ _ Hcomma) in Hin as [Hin| ->].
  - by apply addFields_mono.
Qed.

Lemma idsAt_remove_keeps (kv : gmap string string) (key key' id x : string) :
  x ≠ id → x ≠ "" →
  x ∈ idsAt kv key' →
  x ∈ idsAt
        (if Nat.eqb (length (removeId (Get kv key) id)) 0 then delete key kv
         else <[key := Join (removeId (Get kv key) id) ","]> kv) key'.
Proof.
  intros Hx Hne Hin. destruct (decide (key = key')) as [<-|Hk].
  2: { destruct (Nat.eqb _ 0);
         [by rewrite idsAt_delete_ne|by rewrite idsAt_insert_ne]. }
  apply idsAt_elem_of_nonempty in Hin as [_ Hin].
  assert (x ∈ removeId (Get kv key) id) as Hkept.
  { unfold removeId. apply list_elem_of_filter. split; [congruence|done]. }
  assert (removeId (Get kv key) id ≠ []) as Hnil.
  { intros Heq. rewrite Heq in Hkept. by apply elem_of_nil in Hkept. }
  destruct (Nat.eqb (length _) 0) eqn:E.
  { destruct (removeId (Get kv key) id); [done|]. done. }
  unfold idsAt, Get at 1 3. rewrite lookup_insert_eq. simpl.
  rewrite Split_Join_removeId by done.
  destruct (String.eqb _ "") eqn:E'; [|done].
  apply String.eqb_eq in E'.
  pose proof (Split_Join_removeId (Get kv key) id Hnil) as Hs.
  rewrite E' in Hs. simpl in Hs. rewrite <- Hs in Hkept.
  apply list_elem_of_singleton in Hkept. done.
Qed.

Lemma deletePathValues_keeps (collectionName id : string) (pv : list string)
    (index : gmap string string) (key x : string) :
  x ≠ id → x ≠ "" →
  x ∈ idsAt index key →
  x ∈ idsAt (deletePathValues collectionName id pv index) key.
Proof.
  intros Hx Hne. revert index.
  induction pv as [|pathValue pv IH]; intros index Hin; simpl; [done|].
  destruct (String.eqb (Get index _) ""); [done|].
  apply IH. by apply idsAt_remove_keeps.
Qed.

Lemma removeTokens_keeps (collectionName id : string) (tokens : list string)
    (index : gmap string string) (key x : string) :
  x ≠ id → x ≠ "" →
  x ∈ idsAt index key →
  x ∈ idsAt (foldl (fts.removeToken collectionName id) index tokens) key.
Proof.
  intros Hx Hne. revert index.
  induction tokens as [|token tokens IH]; intros index Hin; simpl; [done|].
  apply IH. unfold fts.removeToken.
  destruct (String.eqb (Get index _) ""); [done|]. by apply idsAt_remove_keeps.
Qed.

Lemma deleteFields_keeps (collectionName id : string) (document : Document)
    (index : gmap string string) (key x : string) :
  x ≠ id → x ≠ "" →
  x ∈ idsAt index key →
  x ∈ idsAt (fts.deleteFields collectionName id document index).1 key.
Proof.
  intros Hx Hne. revert index.
  induction document as [|[k v] rest IH]; intros index Hin; simpl; [done|].
  destruct v; simpl; try done; try (by apply IH).
  apply IH. by apply removeTokens_keeps.
Qed.

(** X27. A delete changes the posting lists of no other id: in the secondary
    index and in the text index, another id, not the empty string, is listed
    under a key after the delete exactly when it was listed there before,
    whatever the delete returned. *)
Theorem DeleteOneById_postings_frame (db : DB)
    (collectionName id indexKey textKey x : string) :
  x ≠ id → x ≠ "" →
  (x ∈ idsAt (index (DeleteOneById db collectionName id).1) indexKey
   ↔ x ∈ idsAt (index db) indexKey)
  ∧ (x ∈ idsAt (fts.textIndex (fts (DeleteOneById db collectionName id).1)) textKey
     ↔ x ∈ idsAt (fts.textIndex (fts db)) textKey).
Proof.
  intros Hx Hne. rewrite DeleteOneById_index, DeleteOneById_textIndex.
  destruct (store db !! getDocumentKey collectionName id); [|done]. split; split.
  - apply deletePathValues_subseteq.
  - by apply deletePathValues_keeps.
  - apply deleteFields_subseteq.
  - by apply deleteFields_keeps.
Qed.

End PostingFrames.

(** ** The properties above on the example databases *)

Section FurtherInputs.
#[local] Existing Instance integers.
#[local] Existing Instance asciiRuntime.

Lemma insertedOnly_dbThree : insertedOnly dbThree.
Proof.
  unfold dbThree. cbv zeta.
  repeat (apply insertedOnly_insert; [|reflexivity|reflexivity]).
  apply insertedOnly_empty.
Qed.

Lemma FindOneById_dbThree : FindOneById dbThree "c" id2 = Ok storedOx.
Proof. vm_compute. reflexivity. Qed.

Lemma getPathValues_storedOx : getPathValues storedOx "" = ["name=ox"].
Proof. vm_compute. reflexivity. Qed.

Lemma FindMany_limit_witness :
  (0 < 2)%Z ∧
  length (FindMany dbThree "c" [] {| Limit := 2 |}) =
    Nat.min (Z.to_nat 2) (length (FindMany dbThree "c" [] {| Limit := 0 |}))
  ∧ FindMany dbThree "c" [] {| Limit := 2 |}
    ⊆+ FindMany dbThree "c" [] {| Limit := 0 |}.
Proof.
  split; [reflexivity|]. exact (FindMany_limit dbThree "c" [] 2 eq_refl).
Defined.

Lemma FindMany_scan_complete_witness :
  hasColon "c" = false ∧ indexEligible queryNotGo = false ∧
  FindOneById dbThree "c" id2 = Ok storedOx ∧
  matchQuery storedOx queryNotGo = true ∧
  storedOx ∈ FindMany dbThree "c" queryNotGo {| Limit := 0 |}.
Proof.
  split; [reflexivity|]. split; [reflexivity|].
  split; [exact FindOneById_dbThree|]. split; [reflexivity|].
  exact (FindMany_scan_complete dbThree "c" id2 storedOx queryNotGo
           eq_refl eq_refl FindOneById_dbThree eq_refl).
Defined.

Lemma wellFormedPostings_dbOne : wellFormedPostings (index dbOne).
Proof.
  unfold dbOne. rewrite InsertOne_index.
  change (store emptyDB) with (∅ : gmap string Document). rewrite lookup_empty.
  apply indexDocument_wellFormed; [done|reflexivity|apply wellFormedPostings_empty].
Qed.

Lemma candidates_spec_witness :
  wellFormedPostings (index dbOne) ∧ indexEligible queryGo = true ∧
  (id1 ∈ candidates (index dbOne) "c" queryGo ↔
   ∀ topOperand, topOperand ∈ queryGo →
     if String.eqb (GroupOperator topOperand) "OR"
     then ∃ operand, operand ∈ Operands topOperand
                     ∧ id1 ∈ idsOfOperand (index dbOne) "c" operand
     else ∀ operand, operand ∈ Operands topOperand →
                     Operator operand = EQ →
                     id1 ∈ idsOfOperand (index dbOne) "c" operand).
Proof.
  split; [exact wellFormedPostings_dbOne|]. split; [reflexivity|].
  exact (candidates_spec (index dbOne) "c" queryGo id1
           wellFormedPostings_dbOne eq_refl).
Defined.

Lemma InsertOne_twice_witness :
  InsertOne emptyDB "c" (named "go") id1 = (dbOne, Ok id1) ∧
  InsertOne dbOne "c" (named "ox") id1 = (dbOne, Err (ErrDuplicateKey id1)).
Proof.
  split; [exact InsertOne_dbOne|].
  exact (InsertOne_twice emptyDB dbOne "c" (named "go") (named "ox") id1 id1
           InsertOne_dbOne).
Defined.

Lemma InsertOne_other_witness :
  hasColon "d" = false ∧ hasColon "c" = false ∧
  ("d", id1) ≠ ("c", id1) ∧
  FindOneById (InsertOne dbOne "d" (named "ox") id1).1 "c" id1 =
  FindOneById dbOne "c" id1.
Proof.
  assert (("d", id1) ≠ ("c", id1)) as Hne by discriminate.
  split; [reflexivity|]. split; [reflexivity|]. split; [exact Hne|].
  exact (InsertOne_other dbOne "d" "c" (named "ox") id1 id1 eq_refl eq_refl Hne).
Defined.

Lemma InsertMany_dbMany :
  InsertMany emptyDB "c" [named "go"; named "ox"; named "pi"] threeIds
  = (dbMany, Ok [id1; id2; id3]).
Proof. apply result_pair. vm_compute. reflexivity. Qed.

Lemma InsertMany_Ok_witness :
  InsertMany emptyDB "c" [named "go"; named "ox"; named "pi"] threeIds
  = (dbMany, Ok [id1; id2; id3]) ∧
  [id1; id2; id3] =
    map threeIds (seq 0 (length [named "go"; named "ox"; named "pi"])) ∧
  Forall2 (λ document id,
             FindOneById dbMany "c" id =
               Ok (mapAssign (jsonObject document) "_id" (Str id)))
    [named "go"; named "ox"; named "pi"] [id1; id2; id3].
Proof.
  split; [exact InsertMany_dbMany|].
  exact (InsertMany_Ok emptyDB dbMany "c" [named "go"; named "ox"; named "pi"]
           threeIds [id1; id2; id3] InsertMany_dbMany).
Defined.

Lemma FindMany_after_InsertOne_witness :
  wellFormedPostings (index emptyDB) ∧ plainId id1 = true ∧
  InsertOne emptyDB "c" (named "go") id1 = (dbOne, Ok id1) ∧
  "name" ≠ "_id" ∧ hasChar "."%char "name" = false ∧
  mapHas (mapAssign (jsonObject (named "go")) "_id" (Str id1)) "name" = true ∧
  isScalar (mapIndex (mapAssign (jsonObject (named "go")) "_id" (Str id1)) "name")
    = true ∧
  Sprint (Str "go") =
    Sprint (mapIndex (mapAssign (jsonObject (named "go")) "_id" (Str id1)) "name") ∧
  mapAssign (jsonObject (named "go")) "_id" (Str id1)
    ∈ FindMany dbOne "c" queryGo {| Limit := 0 |}.
Proof.
  assert ("name" ≠ "_id") as Hne by discriminate.
  split; [apply wellFormedPostings_empty|]. split; [reflexivity|].
  split; [exact InsertOne_dbOne|]. split; [exact Hne|].
  split; [reflexivity|]. split; [reflexivity|]. split; [reflexivity|].
  split; [reflexivity|].
  exact (FindMany_after_InsertOne emptyDB dbOne "c" (named "go") id1 "name"
           (Str "go") wellFormedPostings_empty eq_refl InsertOne_dbOne Hne
           eq_refl eq_refl eq_refl eq_refl).
Defined.

Lemma DeleteOneById_dbOne :
  DeleteOneById dbOne "c" id1 = ((DeleteOneById dbOne "c" id1).1, Ok ()).
Proof. apply result_pair. vm_compute. reflexivity. Qed.

Lemma DeleteOneById_twice_witness :
  DeleteOneById dbOne "c" id1 = ((DeleteOneById dbOne "c" id1).1, Ok ()) ∧
  FindOneById (DeleteOneById dbOne "c" id1).1 "c" id1 = Err ErrDocumentNotExists ∧
  DeleteOneById (DeleteOneById dbOne "c" id1).1 "c" id1
  = ((DeleteOneById dbOne "c" id1).1, Err ErrDocumentNotExists).
Proof.
  split; [exact DeleteOneById_dbOne|].
  exact (DeleteOneById_twice dbOne _ "c" id1 DeleteOneById_dbOne).
Defined.

Lemma DeleteOneById_other_witness :
  hasColon "c" = false ∧ hasColon "c" = false ∧
  ("c", id1) ≠ ("c", id2) ∧
  FindOneById (DeleteOneById dbThree "c" id1).1 "c" id2 =
  FindOneById dbThree "c" id2.
Proof.
  assert (("c", id1) ≠ ("c", id2)) as Hne by discriminate.
  split; [reflexivity|]. split; [reflexivity|]. split; [exact Hne|].
  exact (DeleteOneById_other dbThree "c" "c" id1 id2 eq_refl eq_refl Hne).
Defined.

Lemma evolved_deleted : evolved (DeleteOneById dbThree "c" id2).1.
Proof.
  apply evolved_delete. unfold dbThree. cbv zeta.
  repeat (apply evolved_insert; [|reflexivity]). apply evolved_empty.
Qed.

Lemma evolved_wellFormedPostings_witness :
  evolved (DeleteOneById dbThree "c" id2).1 ∧
  wellFormedPostings (index (DeleteOneById dbThree "c" id2).1) ∧
  wellFormedPostings (fts.textIndex (fts (DeleteOneById dbThree "c" id2).1)).
Proof.
  split; [exact evolved_deleted|].
  exact (evolved_wellFormedPostings _ evolved_deleted).
Defined.

Lemma insertedOnly_index_exact_witness :
  insertedOnly dbThree ∧ hasColon "c" = false ∧
  (id2 ∈ idsAt (index dbThree) (getIndexKey "c" "name=ox") ↔
   ∃ stored, FindOneById dbThree "c" id2 = Ok stored
             ∧ "name=ox" ∈ getPathValues stored "").
Proof.
  split; [exact insertedOnly_dbThree|]. split; [reflexivity|].
  exact (insertedOnly_index_exact dbThree "c" id2 "name=ox"
           insertedOnly_dbThree eq_refl).
Defined.

Lemma getPathValues_listed_dbThree :
  ∀ pv, pv ∈ getPathValues storedOx "" →
        Get (index dbThree) (getIndexKey "c" pv) ≠ "".
Proof.
  intros pv Hpv. rewrite getPathValues_storedOx in Hpv.
  apply list_elem_of_singleton in Hpv as ->. vm_compute. discriminate.
Qed.

Lemma NoDup_getPathValues_storedOx : NoDup (getPathValues storedOx "").
Proof. rewrite getPathValues_storedOx. apply NoDup_singleton. Qed.

Lemma elem_of_getPathValues_storedOx : "name=ox" ∈ getPathValues storedOx "".
Proof. rewrite getPathValues_storedOx. left. Qed.

Lemma deleteDocumentFromIndex_removes_witness :
  NoDup (getPathValues storedOx "") ∧
  (∀ pv, pv ∈ getPathValues storedOx "" →
         Get (index dbThree) (getIndexKey "c" pv) ≠ "") ∧
  "name=ox" ∈ getPathValues storedOx "" ∧
  id2 ∉ idsAt (deleteDocumentFromIndex (index dbThree) "c" id2 storedOx)
          (getIndexKey "c" "name=ox").
Proof.
  split; [exact NoDup_getPathValues_storedOx|].
  split; [exact getPathValues_listed_dbThree|].
  split; [exact elem_of_getPathValues_storedOx|].
  exact (deleteDocumentFromIndex_removes (index dbThree) "c" id2 storedOx "name=ox"
           NoDup_getPathValues_storedOx getPathValues_listed_dbThree
           elem_of_getPathValues_storedOx).
Defined.

Lemma store_dbThree :
  store dbThree !! getDocumentKey "c" id2 = Some storedOx.
Proof. vm_compute. reflexivity. Qed.

Lemma DeleteOneById_index_clean_witness :
  insertedOnly dbThree ∧ hasColon "c" = false ∧
  store dbThree !! getDocumentKey "c" id2 = Some storedOx ∧
  NoDup (getPathValues storedOx "") ∧
  id2 ∉ idsAt (index (DeleteOneById dbThree "c" id2).1)
          (getIndexKey "c" "name=ox").
Proof.
  split; [exact insertedOnly_dbThree|]. split; [reflexivity|].
  split; [exact store_dbThree|]. split; [exact NoDup_getPathValues_storedOx|].
  exact (DeleteOneById_index_clean dbThree "c" id2 storedOx "name=ox"
           insertedOnly_dbThree eq_refl store_dbThree NoDup_getPathValues_storedOx).
Defined.

Lemma AddToIndex_named :
  fts.AddToIndex {| fts.textIndex := ∅ |} "c" id1 (named "go ox")
  = ((fts.AddToIndex {| fts.textIndex := ∅ |} "c" id1 (named "go ox")).1, Ok ()).
Proof. apply result_pair. vm_compute. reflexivity. Qed.

Lemma analyze_go_ox : "ox" ∈ fts.analyze "go ox".
Proof.
  assert (fts.analyze "go ox" = ["go"; "ox"]) as -> by (vm_compute; reflexivity).
  right. left.
Qed.

Lemma AddToIndex_lists_witness :
  plainId id1 = true ∧
  fts.AddToIndex {| fts.textIndex := ∅ |} "c" id1 (named "go ox")
  = ((fts.AddToIndex {| fts.textIndex := ∅ |} "c" id1 (named "go ox")).1, Ok ()) ∧
  {| fts.Name := "name"; fts.Tag := "textIndex"; fts.Contents := Str "go ox" |}
    ∈ named "go ox" ∧
  textIndexed
    {| fts.Name := "name"; fts.Tag := "textIndex"; fts.Contents := Str "go ox" |}
    = true ∧
  fts.Contents
    {| fts.Name := "name"; fts.Tag := "textIndex"; fts.Contents := Str "go ox" |}
    = Str "go ox" ∧
  "ox" ∈ fts.analyze "go ox" ∧
  id1 ∈ postingList
          (fts.AddToIndex {| fts.textIndex := ∅ |} "c" id1 (named "go ox")).1
          "c" "ox".
Proof.
  assert ({| fts.Name := "name"; fts.Tag := "textIndex";
             fts.Contents := Str "go ox" |} ∈ named "go ox") as Hfield by left.
  split; [reflexivity|]. split; [exact AddToIndex_named|].
  split; [exact Hfield|]. split; [reflexivity|]. split; [reflexivity|].
  split; [exact analyze_go_ox|].
  exact (AddToIndex_lists _ _ "c" id1 (named "go ox") _ "go ox" "ox"
           eq_refl AddToIndex_named Hfield eq_refl eq_refl analyze_go_ox).
Defined.

Lemma DeleteFromIndex_dbOne :
  fts.DeleteFromIndex (fts dbOne) "c" id1 [("name", Str "go")]
  = ((fts.DeleteFromIndex (fts dbOne) "c" id1 [("name", Str "go")]).1, Ok ()).
Proof. apply result_pair. vm_compute. reflexivity. Qed.

Lemma analyze_go : "go" ∈ fts.analyze "go".
Proof.
  assert (fts.analyze "go" = ["go"]) as -> by (vm_compute; reflexivity). left.
Qed.

Lemma DeleteFromIndex_removes_witness :
  fts.DeleteFromIndex (fts dbOne) "c" id1 [("name", Str "go")]
  = ((fts.DeleteFromIndex (fts dbOne) "c" id1 [("name", Str "go")]).1, Ok ()) ∧
  ("name", Str "go") ∈ [("name", Str "go")] ∧
  "go" ∈ fts.analyze "go" ∧
  id1 ∉ postingList
          (fts.DeleteFromIndex (fts dbOne) "c" id1 [("name", Str "go")]).1
          "c" "go".
Proof.
  assert (("name", Str "go") ∈ [("name", Str "go")]) as Hfield by left.
  split; [exact DeleteFromIndex_dbOne|]. split; [exact Hfield|].
  split; [exact analyze_go|].
  exact (DeleteFromIndex_removes _ _ "c" id1 _ "name" "go" "go"
           DeleteFromIndex_dbOne Hfield analyze_go).
Defined.

Lemma inEveryPostingList_dbTwo :
  inEveryPostingList (fts dbTwo) "c" "go ox" id1 = true.
Proof. vm_compute. reflexivity. Qed.

Lemma Search_complete_witness :
  inEveryPostingList (fts dbTwo) "c" "go ox" id1 = true ∧
  id1 ∈ fts.Search (fts dbTwo) "c" "go ox".
Proof.
  split; [exact inEveryPostingList_dbTwo|].
  exact (Search_complete (fts dbTwo) "c" "go ox" id1 inEveryPostingList_dbTwo).
Defined.

Lemma analyze_go_tokens : fts.analyze "go" ≠ [].
Proof.
  assert (fts.analyze "go" = ["go"]) as -> by (vm_compute; reflexivity). done.
Qed.

Lemma Search_after_InsertOne_witness :
  plainId id1 = true ∧
  InsertOne emptyDB "c" (named "go") id1 = (dbOne, Ok id1) ∧
  {| fts.Name := "name"; fts.Tag := "textIndex"; fts.Contents := Str "go" |}
    ∈ named "go" ∧
  textIndexed
    {| fts.Name := "name"; fts.Tag := "textIndex"; fts.Contents := Str "go" |}
    = true ∧
  fts.Contents
    {| fts.Name := "name"; fts.Tag := "textIndex"; fts.Contents := Str "go" |}
    = Str "go" ∧
  fts.analyze "go" ≠ [] ∧
  id1 ∈ fts.Search (fts dbOne) "c" "go" ∧
  ∀ documents, Search dbOne "c" "go" = Ok documents →
    mapAssign (jsonObject (named "go")) "_id" (Str id1) ∈ documents.
Proof.
  assert ({| fts.Name := "name"; fts.Tag := "textIndex";
             fts.Contents := Str "go" |} ∈ named "go") as Hfield by left.
  split; [reflexivity|]. split; [exact InsertOne_dbOne|].
  split; [exact Hfield|]. split; [reflexivity|]. split; [reflexivity|].
  split; [exact analyze_go_tokens|].
  exact (Search_after_InsertOne emptyDB dbOne "c" (named "go") id1 _ "go"
           eq_refl InsertOne_dbOne Hfield eq_refl eq_refl analyze_go_tokens).
Defined.

Lemma InsertOne_postings_frame_witness :
  plainId id2 = true ∧ id1 ≠ id2 ∧
  (id1 ∈ idsAt (index (InsertOne dbOne "c" (named "go") id2).1)
           (getIndexKey "c" "name=go")
   ↔ id1 ∈ idsAt (index dbOne) (getIndexKey "c" "name=go"))
  ∧ (id1 ∈ idsAt (fts.textIndex (fts (InsertOne dbOne "c" (named "go") id2).1))
             (fts.getIndexKey "c" "go")
     ↔ id1 ∈ idsAt (fts.textIndex (fts dbOne)) (fts.getIndexKey "c" "go")).
Proof.
  assert (id1 ≠ id2) as Hne by discriminate.
  split; [reflexivity|]. split; [exact Hne|].
  exact (InsertOne_postings_frame dbOne "c" (named "go") id2
           (getIndexKey "c" "name=go") (fts.getIndexKey "c" "go") id1 eq_refl Hne).
Defined.

Lemma DeleteOneById_postings_frame_witness :
  id1 ≠ id2 ∧ id1 ≠ "" ∧
  (id1 ∈ idsAt (index (DeleteOneById dbThree "c" id2).1)
           (getIndexKey "c" "name=go")
   ↔ id1 ∈ idsAt (index dbThree) (getIndexKey "c" "name=go"))
  ∧ (id1 ∈ idsAt (fts.textIndex (fts (DeleteOneById dbThree "c" id2).1))
             (fts.getIndexKey "c" "go")
     ↔ id1 ∈ idsAt (fts.textIndex (fts dbThree)) (fts.getIndexKey "c" "go")).
Proof.
  assert (id1 ≠ id2) as Hne by discriminate.
  assert (id1 ≠ "") as Hne' by discriminate.
  split; [exact Hne|]. split; [exact Hne'|].
  exact (DeleteOneById_postings_frame dbThree "c" id2
           (getIndexKey "c" "name=go") (fts.getIndexKey "c" "go") id1 Hne Hne').
Defined.

End FurtherInputs.

(** ** [FindMany] against the reference evaluation *)

Section Equivalence.
Context `{GoRuntime}.

Lemma DeleteOneById_Ok_inv (db db' : DB) (collectionName id : string) :
  DeleteOneById db collectionName id = (db', Ok ()) →
  (∃ document, store db !! getDocumentKey collectionName id = Some document)
  ∧ store db' = delete (getDocumentKey collectionName id) (store db)
  ∧ db' = (DeleteOneById db collectionName id).1.
Proof.
  intros Hdel.
  assert (db' = (DeleteOneById db collectionName id).1) as Hdb by (by rewrite Hdel).
  split; [|split; [|done]].
  - unfold DeleteOneById, FindOneById in Hdel.
    destruct (store db !! getDocumentKey collectionName id) as [document|];
      [by exists document|done].
  - rewrite Hdb, DeleteOneById_store. by rewrite Hdel.
Qed.

Lemma listed_insert (db : DB) (collectionName : string) (document : fts.Struct)
    (id : string) :
  plainId id = true → hasColon collectionName = false →
  listed db → listed (InsertOne db collectionName document id).1.
Proof.
  intros Hid Hc Hl c id' stored pathValue Hc' Hs Hpv.
  apply plainId_spec in Hid as (Hne & Hcomma & _).
  rewrite InsertOne_store in Hs. rewrite InsertOne_index.
  destruct (store db !! getDocumentKey collectionName id) eqn:E0; [by eapply Hl|].
  destruct (decide (getDocumentKey collectionName id = getDocumentKey c id'))
    as [Hkey|Hkey].
  - rewrite Hkey, lookup_insert_eq in Hs. injection Hs as <-.
    apply getDocumentKey_pair_inj in Hkey as [-> ->]; [|done..].
    unfold indexDocument. by apply indexPathValues_lists.
  - rewrite lookup_insert_ne in Hs by done.
    apply indexDocument_mono; [done..|]. by eapply Hl.
Qed.

Lemma listed_delete (db db' : DB) (collectionName id : string) :
  hasColon collectionName = false →
  wellFormedPostings (index db) → listed db →
  DeleteOneById db collectionName id = (db', Ok ()) →
  listed db'.
Proof.
  intros Hc Hwf Hl Hdel c id' stored pathValue Hc' Hs Hpv.
  apply DeleteOneById_Ok_inv in Hdel as ((document & Hdoc) & Hstore & ->).
  rewrite Hstore in Hs. rewrite DeleteOneById_index, Hdoc.
  destruct (decide (getDocumentKey collectionName id = getDocumentKey c id'))
    as [Hkey|Hkey]; [by rewrite Hkey, lookup_delete_eq in Hs|].
  rewrite lookup_delete_ne in Hs by done.
  pose proof (Hl _ _ _ _ Hc' Hs Hpv) as Hold.
  unfold deleteDocumentFromIndex.
  destruct (decide (id' = id)) as [->|Hid].
  - assert (c ≠ collectionName) as Hcne by (intros ->; done).
    rewrite (idsAt_ext _ (index db)); [done|].
    apply deletePathValues_other. intros Hin.
    apply list_elem_of_fmap in Hin as (pv' & Hk & _).
    change (getIndexKey c pathValue) with (getDocumentKey c pathValue) in Hk.
    change (getIndexKey collectionName pv')
      with (getDocumentKey collectionName pv') in Hk.
    by apply getDocumentKey_pair_inj in Hk as [-> _].
  - apply deletePathValues_keeps; [done| |done].
    apply idsAt_elem_of_nonempty in Hold as [Hget Hin].
    apply Get_nonempty, Hwf in Hget as (_ & _ & Hempty). by intros ->.
Qed.

(** What successful inserts and deletes keep true of the stores. *)
Lemma maintained_invariant (db : DB) :
  maintained db → wellFormedPostings (index db) ∧ listed db ∧ keyed db.
Proof.
  induction 1 as [|db collectionName document id db' _ (IHw & IHl & IHk) Hid Hc Hins
                  |db collectionName id db' _ (IHw & IHl & IHk) Hc Hdel].
  - split; [apply wellFormedPostings_empty|]. split.
    + intros c id stored pv _ Hs. unfold emptyDB in Hs. simpl in Hs.
      by rewrite lookup_empty in Hs.
    + intros key stored Hs. unfold emptyDB in Hs. simpl in Hs.
      by rewrite lookup_empty in Hs.
  - pose proof (plainId_spec _ Hid) as (Hne & Hcomma & _).
    apply InsertOne_Ok_inv in Hins as (Hnone & _ & ->). split; [|split].
    + rewrite InsertOne_index, Hnone. by apply indexDocument_wellFormed.
    + by apply listed_insert.
    + intros key stored Hs. rewrite InsertOne_store, Hnone in Hs.
      destruct (decide (getDocumentKey collectionName id = key)) as [<-|Hkey];
        [by exists collectionName, id|].
      rewrite lookup_insert_ne in Hs by done. by eapply IHk.
  - split; [|split].
    + apply DeleteOneById_Ok_inv in Hdel as ((stored & Hdoc) & _ & ->).
      rewrite DeleteOneById_index, Hdoc. by apply deletePathValues_wellFormed.
    + by eapply listed_delete.
    + apply DeleteOneById_Ok_inv in Hdel as (_ & Hstore & _).
      intros key stored Hs. rewrite Hstore in Hs.
      apply lookup_delete_Some in Hs as [_ Hs]. by eapply IHk.
Qed.

Lemma storedEntries_intro (db : DB) (collectionName : string) (ids : list string)
    (id : string) (document : Document) :
  id ∈ ids →
  store db !! getDocumentKey collectionName id = Some document →
  (getDocumentKey collectionName id, document) ∈ storedEntries db collectionName ids.
Proof.
  intros Hid Hs. unfold storedEntries. apply list_elem_of_omap.
  exists id. split; [done|]. by rewrite Hs.
Qed.

Lemma Iterate_elem_of {V : Type} (kv : gmap string V) (key : string) (v : V) :
  (key, v) ∈ Iterate kv ↔ kv !! key = Some v.
Proof.
  unfold Iterate. rewrite merge_sort_Permutation. apply elem_of_map_to_list.
Qed.

Lemma Iterate_NoDup {V : Type} (kv : gmap string V) : NoDup (Iterate kv).
Proof.
  unfold Iterate. rewrite merge_sort_Permutation. apply NoDup_map_to_list.
Qed.

Lemma NoDup_filter_bool {A : Type} (f : A → bool) (l : list A) :
  NoDup l → NoDup (List.filter f l).
Proof.
  induction 1 as [|x l Hnotin _ IH]; simpl; [constructor|].
  destruct (f x); [|done]. constructor; [|done].
  intros Hin. apply list_elem_of_In, filter_In in Hin as [Hin _].
  by apply list_elem_of_In in Hin.
Qed.

Lemma filter_map_bool {A B : Type} (f : B → bool) (g : A → B) (l : list A) :
  List.filter f (map g l) = map g (List.filter (λ a, f (g a)) l).
Proof.
  induction l as [|a l IH]; simpl; [done|].
  destruct (f (g a)); simpl; by rewrite IH.
Qed.

(** A stored document of the collection that matches an index-eligible
    query which the index covers is among the candidates. *)
Lemma candidates_covered (db : DB) (collectionName : string) (query : Query)
    (id : string) (document : Document) :
  wellFormedPostings (index db) → listed db →
  hasColon collectionName = false →
  indexEligible query = true → indexCovers db collectionName query →
  store db !! getDocumentKey collectionName id = Some document →
  matchQuery document query = true →
  id ∈ candidates (index db) collectionName query.
Proof.
  intros Hwf Hl Hc Hq Hcov Hs Hm.
  assert (FindOneById db collectionName id = Ok document) as Hfind
    by (unfold FindOneById; by rewrite Hs).
  assert (∀ topOperand operand,
            topOperand ∈ query → operand ∈ Operands topOperand →
            Operator operand = EQ → matchCondition document operand = true →
            id ∈ idsOfOperand (index db) collectionName operand) as Hread.
  { intros g operand Hg Ho Heq Hmc.
    pose proof (Hcov _ _ _ _ Hfind Hg Ho Heq Hmc) as Hpv.
    unfold idsOfOperand. by apply idsAt_elem_of_nonempty, (Hl _ _ document). }
  apply candidates_queryTerms;
    [by apply queryTerms_nonempty|by apply queryTerms_NoDup|].
  unfold queryTerms. apply Forall_forall. intros ids Hin.
  apply list_elem_of_In, in_flat_map in Hin as (g & Hg & Hin).
  apply list_elem_of_In in Hg.
  unfold matchQuery in Hm. rewrite forallb_forall in Hm.
  specialize (Hm g ltac:(by apply list_elem_of_In)).
  unfold indexEligible in Hq. apply andb_true_iff in Hq as [_ Hq].
  rewrite forallb_forall in Hq.
  specialize (Hq g ltac:(by apply list_elem_of_In)).
  unfold groupTerms in Hin. unfold groupRule in Hq.
  destruct (String.eqb (GroupOperator g) "OR").
  - destruct Hin as [<-|[]]. apply elem_of_elements, idsOfOrGroup_elem_of.
    apply andb_true_iff in Hq as [_ Hq]. rewrite forallb_forall in Hq.
    apply existsb_exists in Hm as (operand & Ho & Hmc).
    exists operand. split; [by apply list_elem_of_In|].
    apply (Hread g); [done|by apply list_elem_of_In| |done].
    by apply String.eqb_eq, Hq.
  - apply in_map_iff in Hin as (operand & <- & Hin).
    apply filter_In in Hin as [Hin Heq]. rewrite forallb_forall in Hm.
    apply (Hread g); [done|by apply list_elem_of_In|by apply String.eqb_eq|].
    by apply Hm.
Qed.

(** The index branch returns the documents of the reference evaluation,
    in some order, when the index covers the query. *)
Lemma indexEvaluation_reference_Permutation (db : DB) (collectionName : string)
    (query : Query) :
  wellFormedPostings (index db) → listed db → keyed db →
  hasColon collectionName = false →
  indexEligible query = true →
  matchQuery [] query = false → indexCovers db collectionName query →
  indexEvaluation db collectionName query {| Limit := 0 |}
  ≡ₚ referenceFindMany db collectionName query.
Proof.
  intros Hwf Hl Hk Hc Hq Hnil Hcov.
  unfold indexEvaluation, referenceFindMany, scanned.
  rewrite collect_unbounded by done. simpl.
  rewrite filter_candidateDocuments by done.
  rewrite !filter_map_bool. apply fmap_Permutation.
  apply NoDup_Permutation.
  - apply NoDup_filter_bool, storedEntries_NoDup, candidates_NoDup.
  - apply NoDup_filter_bool, NoDup_filter_bool, Iterate_NoDup.
  - intros [key document]. rewrite !list_elem_of_In, !filter_In. simpl.
    rewrite <- !list_elem_of_In, Iterate_elem_of. split.
    + intros [Hin Hm]. apply storedEntries_elem_of in Hin as (id & _ & Hkey & Hs).
      simpl in *. split; [|done]. split; [done|].
      rewrite Hkey. unfold getDocumentKey.
      rewrite Split_key_prefix by done. apply String.eqb_refl.
    + intros [[Hs Hprefix] Hm]. split; [|done].
      destruct (Hk _ _ Hs) as (c & id & -> & Hc').
      apply String.eqb_eq in Hprefix. unfold getDocumentKey in Hprefix.
      rewrite Split_key_prefix in Hprefix by done. simpl in Hprefix. subst c.
      apply storedEntries_intro; [|done].
      by eapply candidates_covered.
Qed.

(** C1, amended.  [FindMany] without a limit returns exactly the list of the
    reference evaluation when the query is not index-eligible.  When the
    query is index-eligible, it returns the same multiset of documents as
    the reference evaluation, in a state reached by successful inserts and
    deletes, when the collection name has no colon, the [nil] document does
    not match the query and the index covers the query: every condition with
    [=] that a stored document of the collection satisfies looks up one of
    the path-value pairs of that document. *)
Theorem FindMany_reference (db : DB) (collectionName : string) (query : Query) :
  (indexEligible query = true →
   maintained db ∧ hasColon collectionName = false
   ∧ matchQuery [] query = false ∧ indexCovers db collectionName query) →
  if indexEligible query
  then FindMany db collectionName query {| Limit := 0 |}
       ≡ₚ referenceFindMany db collectionName query
  else FindMany db collectionName query {| Limit := 0 |}
       = referenceFindMany db collectionName query.
Proof.
  intros Hq.
  unfold FindMany. rewrite fallbackToFullScan_indexEligible, negb_involutive.
  destruct (indexEligible query) eqn:E.
  - destruct (Hq eq_refl) as (Hdb & Hc & Hnil & Hcov).
    apply maintained_invariant in Hdb as (Hwf & Hl & Hk).
    by apply indexEvaluation_reference_Permutation.
  - apply fullScan_reference.
Qed.

(** A condition with [=] on a top-level field that the document has, and
    that is neither a map nor a slice, looks up an indexed value when the
    document satisfies it. *)
Lemma indexedCondition_top_level (document : Document) (condition : Condition) :
  Path condition ≠ "_id" → hasChar "."%char (Path condition) = false →
  mapHas document (Path condition) = true →
  isScalar (mapIndex document (Path condition)) = true →
  Operator condition = EQ →
  matchCondition document condition = true →
  indexedCondition document condition.
Proof.
  intros Hid Hdot Hhas Hscalar Heq Hm. unfold indexedCondition.
  unfold matchCondition, getValueFromPath in Hm.
  rewrite (Split_without_sep _ _ Hdot) in Hm. simpl in Hm.
  rewrite Heq in Hm. simpl in Hm. apply String.eqb_eq in Hm.
  assert (buildPathValue (Path condition) (Str (Sprint (Value condition)))
          = buildPathValue (Path condition) (mapIndex document (Path condition)))
    as -> by (unfold buildPathValue; simpl; by rewrite Hm).
  apply getPathValues_scalar; [by apply mapHas_mapIndex|done..].
Qed.

End Equivalence.

Section EquivalenceInputs.
#[local] Existing Instance integers.
#[local] Existing Instance asciiRuntime.

Lemma maintained_dbOne : maintained dbOne.
Proof.
  apply (maintained_insert emptyDB "c" (named "go") id1 dbOne);
    [apply maintained_empty|reflexivity|reflexivity|exact InsertOne_dbOne].
Qed.

Lemma indexCovers_dbOne : indexCovers dbOne "c" queryGo.
Proof.
  intros id document g operand Hfind Hg Ho Heq Hm.
  apply list_elem_of_singleton in Hg as ->. simpl in Ho.
  apply list_elem_of_singleton in Ho as ->.
  unfold FindOneById in Hfind.
  destruct (InsertOne_Ok_id _ _ _ _ _ _ InsertOne_dbOne) as [_ Hstore].
  rewrite Hstore in Hfind.
  destruct (decide (getDocumentKey "c" id1 = getDocumentKey "c" id)) as [Hkey|Hkey].
  - rewrite <- Hkey, lookup_insert_eq in Hfind. injection Hfind as <-.
    apply indexedCondition_top_level; [discriminate|reflexivity..|done].
  - rewrite lookup_insert_ne in Hfind by done.
    change (store emptyDB) with (∅ : gmap string Document) in Hfind.
    by rewrite lookup_empty in Hfind.
Qed.

Lemma FindMany_reference_witness :
  (indexEligible queryGo = true ∧
   maintained dbOne ∧ hasColon "c" = false
   ∧ matchQuery [] queryGo = false ∧ indexCovers dbOne "c" queryGo) ∧
  FindMany dbOne "c" queryGo {| Limit := 0 |}
    ≡ₚ referenceFindMany dbOne "c" queryGo.
Proof.
  split.
  - split; [reflexivity|]. split; [exact maintained_dbOne|].
    split; [reflexivity|]. split; [reflexivity|exact indexCovers_dbOne].
  - exact (FindMany_reference dbOne "c" queryGo
             (λ _, conj maintained_dbOne
                     (conj eq_refl (conj eq_refl indexCovers_dbOne)))).
Defined.

End EquivalenceInputs.
